(** * cryojax: forward imaging and Gaussian likelihood

    A shallow embedding of the geometric, projection and likelihood code of
    the repository:

    - [Imaging]   : [project] of imaging.py (direct binning), and
                    [ImagingInt32], the same with 32-bit index arithmetic;
    - [Nufft]     : [project_with_nufft] of _scattering/_nufft_project.py;
    - [Gaussian]  : [IndependentFourierGaussian] of
                    inference/distributions/_gaussian_distributions.py;
    - [Linalg3], [Helix] : the lattice generators and [Helix.__check_init__]
                    of _assembly/_helix.py;
    - [Assembly]  : [Assembly.poses] of assembly/_assembly.py.

    Floating-point arrays are read with exact arithmetic: rationals ([Q])
    where the code only adds, multiplies and divides, reals ([R]) where it
    calls [cos] and [sin].  Python integers are [Z]; [//] is [Z.div] and [%]
    is [Z.modulo] (both floor, as in Python). *)

From Stdlib Require Import String ZArith QArith Qround Reals List Bool Lia Lra.
Import ListNotations.

(* ================================================================== *)
(** * Part I: the embedding *)
(* ================================================================== *)

(** ** Exceptions raised by the modelled code *)

Inductive exn : Type :=
| ValueError (msg : string)
| AttributeError (msg : string)
| ZeroDivisionError.

(** ** imaging.py *)

Module Imaging.

Local Open Scope Z_scope.

(** [jnp.rint(x).astype(int)]: round to the nearest integer, ties to the
    even one. *)
Definition rint (q : Q) : Z :=
  let f := Qfloor q in
  match Qcompare (q - inject_Z f) (1 # 2) with
  | Lt => f
  | Gt => f + 1
  | Eq => if Z.even f then f else f + 1
  end.

(** [jnp.clip(x, lo, hi) = minimum(maximum(x, lo), hi)]. *)
Definition clip (x lo hi : Z) : Z := Z.min (Z.max x lo) hi.

(** [jnp.ravel_multi_index((y, z), (N2, N3), mode='clip')] at one point:
    every index is clipped to [0, dim - 1] and the pair is flattened in
    row-major order. *)
Definition ravel_multi_index_clip (yz : Z * Z) (dims : Z * Z) : Z :=
  let '(y, z) := yz in
  let '(N2, N3) := dims in
  clip y 0 (N2 - 1) * N3 + clip z 0 (N3 - 1).

(** [arr.at[i].add(w)] on a one-dimensional array; an index past the end
    is dropped, as JAX's scatter does. *)
Fixpoint add_at (i : nat) (w : Q) (arr : list Q) : list Q :=
  match arr, i with
  | [], _ => []
  | a :: rest, O => (a + w)%Q :: rest
  | a :: rest, S i' => a :: add_at i' w rest
  end.

(** The scatter-add of [bincount]:
    [zeros(length).at[clip(x, 0)].add(weights)], one update per sample,
    all of them summed. *)
Fixpoint scatter_add (arr : list Q) (xs : list Z) (weights : list Q) : list Q :=
  match xs, weights with
  | x :: xs', w :: ws' =>
      scatter_add (add_at (Z.to_nat (Z.max x 0)) w arr) xs' ws'
  | _, _ => arr
  end.

(** [jnp.bincount(x, weights=weights, length=length)]. *)
Definition bincount (x : list Z) (weights : list Q) (length : Z)
  : exn + list Q :=
  if Nat.eqb (List.length x) (List.length weights)
  then inr (scatter_add (repeat 0%Q (Z.to_nat length)) x weights)
  else inl (ValueError "shape of weights must match shape of x.").

(** [flat.reshape((rows, cols))] of a flat array of [rows * cols] items. *)
Fixpoint reshape2 (rows cols : nat) (flat : list Q) : list (list Q) :=
  match rows with
  | O => []
  | S r => firstn cols flat :: reshape2 r cols (skipn cols flat)
  end.

(** One row of [coords]: the three coordinates of a sample. *)
Definition coord : Type := (Q * Q * Q)%type.

Definition axis1 (c : coord) : Q := snd (fst c).
Definition axis2 (c : coord) : Q := snd c.

(** The shifted pixel indices [(y_coords, z_coords)] of one sample:
    [rounded_coords[:, 1] + N2//2, rounded_coords[:, 2] + N3//2]. *)
Definition shifted_index (shape : Z * Z) (c : coord) : Z * Z :=
  let '(N2, N3) := shape in
  (rint (axis1 c) + N2 / 2, rint (axis2 c) + N3 / 2).

(** [project(volume, coords, shape)]. *)
Definition project (volume : list Q) (coords : list coord) (shape : Z * Z)
  : exn + list (list Q) :=
  let '(N2, N3) := shape in
  let flat_coords :=
    map (fun c => ravel_multi_index_clip (shifted_index shape c) (N2, N3))
        coords in
  match bincount flat_coords volume (N2 * N3) with
  | inl e => inl e
  | inr flat => inr (reshape2 (Z.to_nat N2) (Z.to_nat N3) flat)
  end.

(** [jnp.sum] of a one- and of a two-dimensional array. *)
Definition Qsum (l : list Q) : Q := fold_right Qplus 0%Q l.
Definition sum2 (img : list (list Q)) : Q := Qsum (concat img).

(** Pixel [(a, b)] of an image; [0] outside it. *)
Definition pixel (img : list (list Q)) (a b : Z) : Q :=
  if (a <? 0) || (b <? 0) then 0%Q
  else nth (Z.to_nat b) (nth (Z.to_nat a) img []) 0%Q.

(** The spec's words for the clipping: the valid pixel index nearest to
    [i] on an axis of [n] pixels. *)
Definition nearest_valid (n i : Z) : Z :=
  if i <? 0 then 0 else if n <=? i then n - 1 else i.

(** The spec's words for the histogram: the weights of the samples that
    land on pixel [(a, b)], summed in the order of the samples. *)
Fixpoint binned_weight (shape : Z * Z) (a b : Z)
         (volume : list Q) (coords : list coord) : Q :=
  match volume, coords with
  | w :: ws, c :: cs =>
      let '(y, z) := shifted_index shape c in
      let rest := binned_weight shape a b ws cs in
      if (nearest_valid (fst shape) y =? a) && (nearest_valid (snd shape) z =? b)
      then (w + rest)%Q else rest
  | _, _ => 0%Q
  end.


End Imaging.

(** ** imaging.py on the machine integers of JAX

    [jnp.rint(coords).astype(int)] is an array of 32-bit integers, and so
    are the shifted coordinates and the flat index computed from them: the
    conversion of a float saturates at the ends of the type, and additions
    and multiplications wrap around.  [ImagingInt32.project] is [project]
    with that arithmetic written out; it agrees with [Imaging.project]
    whenever the rounded coordinates and the image fit the type. *)

Module ImagingInt32.

Import Imaging.
Local Open Scope Z_scope.

(** The ends of int32, and 2^32. *)
Definition int32_min : Z := -2147483648.
Definition int32_max : Z := 2147483647.
Definition int32_modulus : Z := 4294967296.

(** [x.astype(int)] of an integer-valued float: values beyond the ends of
    int32 become the nearest end. *)
Definition astype_int (x : Z) : Z := Z.min int32_max (Z.max int32_min x).

(** The int32 that an exact integer result wraps to. *)
Definition wrap (x : Z) : Z := (x - int32_min) mod int32_modulus + int32_min.

(** [rounded_coords = jnp.rint(coords).astype(int)] on one coordinate. *)
Definition rounded (q : Q) : Z := astype_int (rint q).

(** [(rounded_coords[:, 1] + N2//2, rounded_coords[:, 2] + N3//2)] of one
    sample, the additions in int32. *)
Definition shifted_index (shape : Z * Z) (c : coord) : Z * Z :=
  let '(N2, N3) := shape in
  (wrap (rounded (axis1 c) + N2 / 2), wrap (rounded (axis2 c) + N3 / 2)).

(** [jnp.ravel_multi_index((y, z), (N2, N3), mode='clip')] at one point:
    the clipped indices are flattened in int32. *)
Definition ravel_multi_index_clip (yz : Z * Z) (dims : Z * Z) : Z :=
  let '(y, z) := yz in
  let '(N2, N3) := dims in
  wrap (wrap (clip y 0 (N2 - 1) * N3) + clip z 0 (N3 - 1)).

(** [project(volume, coords, shape)]. *)
Definition project (volume : list Q) (coords : list coord) (shape : Z * Z)
  : exn + list (list Q) :=
  let '(N2, N3) := shape in
  let flat_coords :=
    map (fun c => ravel_multi_index_clip (shifted_index shape c) (N2, N3))
        coords in
  match bincount flat_coords volume (N2 * N3) with
  | inl e => inl e
  | inr flat => inr (reshape2 (Z.to_nat N2) (Z.to_nat N3) flat)
  end.

(** The spec's words for the histogram, over the indices the code
    computes: the weights of the samples whose index has [(a, b)] as its
    nearest valid pixel, summed in the order of the samples. *)
Fixpoint binned_weight (shape : Z * Z) (a b : Z)
         (volume : list Q) (coords : list coord) : Q :=
  match volume, coords with
  | w :: ws, c :: cs =>
      let '(y, z) := shifted_index shape c in
      let rest := binned_weight shape a b ws cs in
      if (nearest_valid (fst shape) y =? a) && (nearest_valid (snd shape) z =? b)
      then (w + rest)%Q else rest
  | _, _ => 0%Q
  end.

(** A coordinate whose rounded value, and that value shifted by [shift],
    are both int32 values. *)
Definition fits (shift : Z) (q : Q) : Prop :=
  int32_min <= rint q /\ rint q + shift <= int32_max.

End ImagingInt32.

(** ** simulator/_scattering/_nufft_project.py *)

Module Nufft.

(** [range(n)] and the index normalisation of array indexing: a negative
    index counts from the end; [None] when it falls outside the axis. *)
Definition range (n : Z) : list Z := map Z.of_nat (seq 0 (Z.to_nat n)).

Definition norm_index (n : nat) (i : Z) : option nat :=
  let j := if (i <? 0)%Z then (i + Z.of_nat n)%Z else i in
  if ((0 <=? j) && (j <? Z.of_nat n))%Z then Some (Z.to_nat j) else None.

Fixpoint update_at {A : Type} (i : nat) (f : A -> A) (l : list A) : list A :=
  match l, i with
  | [], _ => []
  | a :: rest, O => f a :: rest
  | a :: rest, S i' => a :: update_at i' f rest
  end.

(** [row.at[j].set(v)]; an index outside the axis leaves the row as it is
    (JAX drops the update). *)
Definition set_at {A : Type} (j : Z) (v : A) (row : list A) : list A :=
  match norm_index (List.length row) j with
  | Some k => update_at k (fun _ => v) row
  | None => row
  end.

(** [img.at[:, j].set(v)] and [img.at[i, :].set(v)]. *)
Definition set_col {A : Type} (j : Z) (v : A) (img : list (list A))
  : list (list A) :=
  map (set_at j v) img.

Definition set_row {A : Type} (i : Z) (v : A) (img : list (list A))
  : list (list A) :=
  match norm_index (List.length img) i with
  | Some k => update_at k (map (fun _ => v)) img
  | None => img
  end.

(** [jnp.fft.ifftshift]: every axis is rolled by [-(n // 2)]. *)
Definition ifftshift1 {A : Type} (l : list A) : list A :=
  let k := (List.length l / 2)%nat in
  skipn k l ++ firstn k l.

Definition ifftshift {A : Type} (img : list (list A)) : list (list A) :=
  ifftshift1 (map ifftshift1 img).

(** [row[:stop]]; a negative [stop] counts from the end. *)
Definition slice_to {A : Type} (stop : Z) (row : list A) : list A :=
  if (stop <? 0)%Z
  then firstn (List.length row - Z.to_nat (- stop)) row
  else firstn (Z.to_nat stop) row.

(** An array of shape [(M1, M2)]. *)
Definition has_shape {A : Type} (shape : Z * Z) (img : list (list A)) : Prop :=
  List.length img = Z.to_nat (fst shape)
  /\ Forall (fun row => List.length row = Z.to_nat (snd shape)) img.

Section ProjectWithNufft.

(** The complex numbers of the Fourier image, [astype(complex)] and
    [0.0 + 0.0j]. *)
Variable C : Type.
Variable complex_of : R -> C.
Variable czero : C.

(** [jax_finufft.nufft1(shape, weights, y, x, eps=eps, iflag=-1)], a
    library outside the repository. *)
Variable nufft1 : Z * Z -> list C -> list R -> list R -> R -> list (list C).

Local Open Scope R_scope.

(** [2 * jnp.pi * coordinates_xy / image_size] on one row of coordinates:
    column [k] is divided by entry [k] of [image_size]. *)
Definition periodic_row (image_size : list Z) (row : list R) : list R :=
  map (fun cm => 2 * PI * fst cm / IZR (snd cm)) (combine row image_size).

(** [coordinates_periodic], from [coordinate_list[:, :2]] and the shape. *)
Definition coordinates_periodic (coordinate_list : list (list R))
           (shape : Z * Z) : list (list R) :=
  let coordinates_xy := map (firstn 2) coordinate_list in
  let '(M1, M2) := shape in
  map (periodic_row [M1; M2]) coordinates_xy.

(** [arr[:, k]]. *)
Definition column (k : nat) (arr : list (list R)) : list R :=
  map (fun row => nth k row 0) arr.

(** The call [nufft1(shape, weights, y, x, eps=eps, iflag=-1)] that
    [project_with_nufft] makes. *)
Definition nufft1_call (weights : list R) (coordinate_list : list (list R))
           (shape : Z * Z) (eps : R) : list (list C) :=
  let weights := map complex_of weights in
  let x := column 0 (coordinates_periodic coordinate_list shape) in
  let y := column 1 (coordinates_periodic coordinate_list shape) in
  nufft1 shape weights y x eps.

(** [project_with_nufft(weights, coordinate_list, shape, eps)]. *)
Definition project_with_nufft (weights : list R)
           (coordinate_list : list (list R)) (shape : Z * Z) (eps : R)
  : list (list C) :=
  let '(M1, M2) := shape in
  let projection := nufft1_call weights coordinate_list shape eps in
  let projection := map (slice_to (M2 / 2 + 1)) (ifftshift projection) in
  let projection :=
    if (M2 mod 2 =? 0)%Z then set_col (-1) czero projection else projection in
  let projection :=
    if (M1 mod 2 =? 0)%Z then set_row (M1 / 2) czero projection
    else projection in
  projection.

End ProjectWithNufft.

(** The exact type-1 non-uniform discrete Fourier transform with
    [iflag = -1], which [nufft1] approximates to [eps]: mode [(k1, k2)] is
    the sum of [c_j * exp(-i (k1 * p_j + k2 * q_j))] over the points, with
    the modes of each axis in increasing order from [-(M // 2)]. *)
Definition cplx : Type := (R * R)%type.

Definition cplx_of (r : R) : cplx := (r, 0%R).

Definition modes (M : Z) : list Z := map (fun k => (k - M / 2)%Z) (range M).

Fixpoint nudft_mode (k1 k2 : Z) (c : list cplx) (p q : list R) : cplx :=
  match c, p, q with
  | (cr, ci) :: c', pj :: p', qj :: q' =>
      let phi := (IZR k1 * pj + IZR k2 * qj)%R in
      let '(sr, si) := nudft_mode k1 k2 c' p' q' in
      (cr * cos phi + ci * sin phi + sr, ci * cos phi - cr * sin phi + si)%R
  | _, _, _ => (0, 0)%R
  end.

Definition nudft1 (shape : Z * Z) (c : list cplx) (p q : list R) (eps : R)
  : list (list cplx) :=
  map (fun k1 => map (fun k2 => nudft_mode k1 k2 c p q) (modes (snd shape)))
      (modes (fst shape)).

End Nufft.

(** ** inference/distributions/_gaussian_distributions.py *)

Module Gaussian.

Local Open Scope Q_scope.

(** Complex numbers with rational parts, and the arithmetic the
    distribution uses. *)
Record complex : Type := mkC { re : Q; im : Q }.

Definition Csub (a b : complex) : complex := mkC (re a - re b) (im a - im b).
Definition Cadd (a b : complex) : complex := mkC (re a + re b) (im a + im b).
Definition Cmul (a b : complex) : complex :=
  mkC (re a * re b - im a * im b) (re a * im b + im a * re b).
Definition conjugate (a : complex) : complex := mkC (re a) (- im a).
(** complex + real and complex / real *)
Definition Cadd_real (a : complex) (r : Q) : complex := mkC (re a + r) (im a).
Definition Cdiv_real (a : complex) (r : Q) : complex := mkC (re a / r) (im a / r).

(** An array: its shape and its entries in row-major order. *)
Record ndarray (A : Type) : Type := mkArray { shape : list Z; data : list A }.
Arguments mkArray {A} _ _.
Arguments shape {A} _.
Arguments data {A} _.

(** [arr.size] *)
Definition size {A : Type} (arr : ndarray A) : Z := Z.of_nat (List.length (data arr)).

(** [shape[:-1]] *)
Definition drop_last_axis (s : list Z) : list Z := removelast s.

(** Arithmetic between arrays is entry by entry; the operands of every
    operation below have one shape. *)
Definition map2 {A B D : Type} (f : A -> B -> D) (a : ndarray A) (b : ndarray B)
  : ndarray D :=
  mkArray (shape a) (map (fun ab => f (fst ab) (snd ab)) (combine (data a) (data b))).

Definition amap {A B : Type} (f : A -> B) (a : ndarray A) : ndarray B :=
  mkArray (shape a) (map f (data a)).

(** [jnp.sum] of a complex array *)
Definition Csum (a : ndarray complex) : complex :=
  fold_right Cadd (mkC 0 0) (data a).

(** A spatial frequency, one entry of a frequency grid, and a grid of shape
    [(..., 2)]: [gshape] is the full shape, last axis included. *)
Definition freq : Type := (Q * Q)%type.
Record freq_grid : Type := mkGrid { gshape : list Z; modes : list freq }.

(** Modelled from the spec: the pipeline (simulator.AbstractPipeline is not
    among the sources), an external collaborator that supplies the two
    frequency grids of its image configuration, [render(view_cropped=False,
    get_real=False)] and [crop_and_apply_operators(image, get_real=...)];
    the keyword [get_real] is [None] when the caller passes none. *)
Record AbstractPipeline : Type := mkPipeline {
  padded_frequency_grid_in_angstroms : freq_grid;
  frequency_grid_in_angstroms : freq_grid;
  render : ndarray complex;
  crop_and_apply_operators : option bool -> ndarray complex -> ndarray complex
}.

(** Modelled from the spec: the variance operator
    (image.operators.FourierOperatorLike is not among the sources), a
    function of spatial frequency returning a real variance per mode. *)
Definition FourierOperatorLike : Type := freq -> Q.

(** [operator(freqs)]: the operator on every mode of a grid. *)
Definition evaluate (op : FourierOperatorLike) (freqs : freq_grid) : ndarray Q :=
  mkArray (drop_last_axis (gshape freqs)) (map op (modes freqs)).

Record IndependentFourierGaussian : Type := mkDistribution {
  pipeline : AbstractPipeline;
  variance : FourierOperatorLike
}.

(** *** Calls to the collaborators, and exceptions

    A computation returns the collaborator calls it made, in order, and
    either an exception or a value. *)
Inductive event : Type :=
| CallVariance
| CallNormal
| CallRender
| CallCropAndApplyOperators.

Definition M (A : Type) : Type := (list event * (exn + A))%type.

Definition ret {A : Type} (a : A) : M A := ([], inr a).
Definition raise {A : Type} (e : exn) : M A := ([], inl e).
Definition call {A : Type} (ev : event) (a : A) : M A := ([ev], inr a).
Definition bind {A B : Type} (m : M A) (k : A -> M B) : M B :=
  match m with
  | (t, inl e) => (t, inl e)
  | (t, inr a) => let '(t', r) := k a in (t ++ t', r)
  end.

Notation "x <- m ;; k" := (bind m (fun x => k))
  (at level 61, m at next level, right associativity).

Section Distribution.

(** [jax.random.normal(key, shape=shape)]: the keys and the draws of JAX's
    generator, a library outside the repository. *)
Variable PRNGKeyArray : Type.
Variable normal : PRNGKeyArray -> list Z -> ndarray Q.

(** [IndependentFourierGaussian.sample(key, **kwargs)] *)
Definition sample (self : IndependentFourierGaussian) (key : PRNGKeyArray)
           (kwargs : option bool) : M (ndarray complex) :=
  let freqs := padded_frequency_grid_in_angstroms (pipeline self) in
  var <- call CallVariance (evaluate (variance self) freqs) ;;
  draws <- call CallNormal (normal key (drop_last_axis (gshape freqs))) ;;
  let noise := map2 Qmult var draws in
  image <- call CallRender (render (pipeline self)) ;;
  call CallCropAndApplyOperators
       (crop_and_apply_operators (pipeline self) kwargs
                                 (map2 Cadd_real image noise)).

End Distribution.

(** [IndependentFourierGaussian.log_probability(observed)] *)
Definition log_probability (self : IndependentFourierGaussian)
           (observed : ndarray complex) : M Q :=
  let pipeline := pipeline self in
  let padded_freqs := padded_frequency_grid_in_angstroms pipeline in
  let freqs := frequency_grid_in_angstroms pipeline in
  if list_eq_dec Z.eq_dec (shape observed) (drop_last_axis (gshape padded_freqs))
  then
    rendered <- call CallRender (render pipeline) ;;
    let residuals := map2 Csub rendered observed in
    residuals <- call CallCropAndApplyOperators
                      (crop_and_apply_operators pipeline (Some false) residuals) ;;
    var <- call CallVariance (evaluate (variance self) freqs) ;;
    let loss :=
      Csum (map2 Cdiv_real
                 (map2 Cmul residuals (amap conjugate residuals))
                 (amap (Qmult 2) var)) in
    ret (re loss / inject_Z (size residuals))
  else
    raise (ValueError "Shape of observed must match ImageConfig.padded_shape").

(** The spec's words for the likelihood: the sum over the modes of the
    cropped grid of |residual|^2 / (2 * variance(freq)), divided by the
    number of modes. *)
Definition abs2 (z : complex) : Q := re z * re z + im z * im z.

Fixpoint sum_over_modes (residual : list complex) (freqs : list freq)
         (var : FourierOperatorLike) : Q :=
  match residual, freqs with
  | r :: rs, q :: qs => abs2 r / (2 * var q) + sum_over_modes rs qs var
  | _, _ => 0
  end.

Definition spec_log_probability (residual : list complex) (freqs : list freq)
           (var : FourierOperatorLike) : Q :=
  sum_over_modes residual freqs var / inject_Z (Z.of_nat (List.length freqs)).

(** The residuals that [log_probability] scores: the rendered image minus
    the observed one, through the crop, mask and filter chain. *)
Definition cropped_residuals (self : IndependentFourierGaussian)
           (observed : ndarray complex) : ndarray complex :=
  crop_and_apply_operators (pipeline self) (Some false)
                           (map2 Csub (render (pipeline self)) observed).

(** A pipeline with a single Fourier mode whose image is zero and whose
    chain of operators changes nothing, under a constant variance of 4; a
    generator whose draw for that mode is 1. *)
Definition one_mode_grid : freq_grid := mkGrid [1; 1; 2]%Z [(0, 0)].

Definition one_mode_pipeline : AbstractPipeline :=
  mkPipeline one_mode_grid one_mode_grid
             (mkArray [1; 1]%Z [mkC 0 0])
             (fun _ image => image).

Definition variance_four : IndependentFourierGaussian :=
  mkDistribution one_mode_pipeline (fun _ => 4).

Definition unit_draw (key : unit) (shape : list Z) : ndarray Q :=
  mkArray shape [1].

End Gaussian.

(** ** Arrays of shape (3,) and (3, 3) *)

Module Linalg3.

Local Open Scope R_scope.

Definition vec3 : Type := (R * R * R)%type.

(** A matrix is the triple of its rows. *)
Definition mat3 : Type := (vec3 * vec3 * vec3)%type.

Definition vx (v : vec3) : R := fst (fst v).
Definition vy (v : vec3) : R := snd (fst v).
Definition vz (v : vec3) : R := snd v.

Definition vadd (u v : vec3) : vec3 := (vx u + vx v, vy u + vy v, vz u + vz v).
Definition vsub (u v : vec3) : vec3 := (vx u - vx v, vy u - vy v, vz u - vz v).
Definition vscale (k : R) (v : vec3) : vec3 := (k * vx v, k * vy v, k * vz v).
Definition dot (u v : vec3) : R := vx u * vx v + vy u * vy v + vz u * vz v.

Definition row0 (m : mat3) : vec3 := fst (fst m).
Definition row1 (m : mat3) : vec3 := snd (fst m).
Definition row2 (m : mat3) : vec3 := snd m.

Definition transpose (m : mat3) : mat3 :=
  ((vx (row0 m), vx (row1 m), vx (row2 m)),
   (vy (row0 m), vy (row1 m), vy (row2 m)),
   (vz (row0 m), vz (row1 m), vz (row2 m))).

(** [M @ v] and [A @ B] *)
Definition matvec (m : mat3) (v : vec3) : vec3 :=
  (dot (row0 m) v, dot (row1 m) v, dot (row2 m) v).

Definition matmul (a b : mat3) : mat3 :=
  let bt := transpose b in
  (matvec bt (row0 a), matvec bt (row1 a), matvec bt (row2 a)).

Definition eye : mat3 := ((1, 0, 0), (0, 1, 0), (0, 0, 1)).

Definition det (m : mat3) : R :=
  vx (row0 m) * (vy (row1 m) * vz (row2 m) - vz (row1 m) * vy (row2 m))
  - vy (row0 m) * (vx (row1 m) * vz (row2 m) - vz (row1 m) * vx (row2 m))
  + vz (row0 m) * (vx (row1 m) * vy (row2 m) - vy (row1 m) * vx (row2 m)).

(** A rotation matrix: orthonormal, of determinant +1. *)
Definition orthonormal (m : mat3) : Prop :=
  matmul (transpose m) m = eye /\ matmul m (transpose m) = eye.

Definition is_rotation (m : mat3) : Prop := orthonormal m /\ det m = 1.

(** Proof steps over matrices: split them into their nine entries, unfold
    the operations, and compare triples entry by entry. *)
Ltac mat_cases :=
  repeat match goal with
         | m : mat3 |- _ => destruct m as [[[[? ?] ?] [[? ?] ?]] [[? ?] ?]]
         | v : vec3 |- _ => destruct v as [[? ?] ?]
         end.

Ltac mat_unfold :=
  unfold matmul, transpose, matvec, dot, eye, det, row0, row1, row2,
    vadd, vsub, vscale, vx, vy, vz in *;
  cbn [fst snd] in *.

Ltac pair_eq := repeat (apply pair_equal_spec; split).

Ltac mat_ring := mat_cases; mat_unfold; pair_eq; ring.

End Linalg3.

(** ** simulator/_assembly/_helix.py *)

Module Helix.

Import Linalg3.
Local Open Scope R_scope.

(** [range(n)] and [jnp.arange(n, dtype=float)] *)
Definition range (n : Z) : list Z := map Z.of_nat (seq 0 (Z.to_nat n)).
Definition arange (n : Z) : list R := map IZR (range n).

Definition deg2rad (x : R) : R := x * (PI / 180).

(** [jnp.array(((c, -s, 0), (s, c, 0), (0, 0, 1)))], the rotation about
    the screw axis. *)
Definition screw_rotation (c s : R) : mat3 :=
  ((c, - s, 0), (s, c, 0), (0, 0, 1)).

Definition compute_ith_subunit_position_in_subhelix
           (i theta dz : R) (r_0 : vec3) (N : Z) : vec3 :=
  let c := cos (i * theta) in
  let s := sin (i * theta) in
  let R_t := screw_rotation c s in
  let r_i := vadd (matvec R_t r_0) (vscale i (0, 0, dz)) in
  vsub r_i (0, 0, dz * IZR (N - 1) / 2).

(** [(R_n @ r.T).T]: every row of [r] rotated by [R_n]. *)
Definition compute_helix_subunit_positions_per_start
           (symmetry_angle : R) (r : list vec3) : list vec3 :=
  let c_n := cos symmetry_angle in
  let s_n := sin symmetry_angle in
  let R_n := screw_rotation c_n s_n in
  map (matvec R_n) r.

(** [[2 * jnp.pi * n / n_start for n in range(n_start)]] *)
Definition symmetry_angles (n_start : Z) : list R :=
  map (fun n => 2 * PI * IZR n / IZR n_start) (range n_start).

(** [compute_helical_lattice_positions]; the two [vmap]s are maps over the
    leading axis and the final [reshape] concatenates the sub-helices. *)
Definition compute_helical_lattice_positions
           (rise twist : R) (n_subunits_per_start : Z)
           (initial_displacement : vec3) (n_start : Z) (degrees : bool)
  : list vec3 :=
  let twist := if degrees then deg2rad twist else twist in
  let subunit_indices := arange n_subunits_per_start in
  let subunit_positions_in_subhelix :=
    map (fun i =>
           compute_ith_subunit_position_in_subhelix
             i twist rise initial_displacement n_subunits_per_start)
        subunit_indices in
  flat_map (fun symmetry_angle =>
              compute_helix_subunit_positions_per_start
                symmetry_angle subunit_positions_in_subhelix)
           (symmetry_angles n_start).

Definition compute_ith_subunit_rotation_in_subhelix
           (i theta : R) (R_0 : mat3) : mat3 :=
  let c := cos (i * theta) in
  let s := sin (i * theta) in
  let R_t := screw_rotation c s in
  matmul R_t R_0.

(** [jnp.einsum("ij,njk->nik", R_n, R)] *)
Definition compute_helix_subunit_rotations_per_start
           (symmetry_angle : R) (Rs : list mat3) : list mat3 :=
  let c_n := cos symmetry_angle in
  let s_n := sin symmetry_angle in
  let R_n := screw_rotation c_n s_n in
  map (matmul R_n) Rs.

Definition compute_helical_lattice_rotations
           (twist : R) (n_subunits_per_start : Z)
           (initial_rotation : mat3) (n_start : Z) (degrees : bool)
  : list mat3 :=
  let twist := if degrees then deg2rad twist else twist in
  let subunit_indices := arange n_subunits_per_start in
  let subunit_rotations_in_subhelix :=
    map (fun i =>
           compute_ith_subunit_rotation_in_subhelix i twist initial_rotation)
        subunit_indices in
  flat_map (fun symmetry_angle =>
              compute_helix_subunit_rotations_per_start
                symmetry_angle subunit_rotations_in_subhelix)
           (symmetry_angles n_start).

(** The fields of [Helix] that its lattice reads; [subunit_offset] and
    [subunit_rotation] are [subunit.pose.offset] and
    [subunit.pose.rotation.as_matrix()]. *)
Record Helix : Type := mkHelix {
  subunit_offset : vec3;
  subunit_rotation : mat3;
  rise : R;
  twist : R;
  n_start : Z;
  n_subunits : Z;
  degrees : bool
}.

(** [Helix.__check_init__]; [%] by zero raises in Python. *)
Definition __check_init__ (self : Helix) : exn + unit :=
  if (n_start self =? 0)%Z then inl ZeroDivisionError
  else if negb (n_subunits self mod n_start self =? 0)%Z
       then inl (AttributeError
                   "The number of subunits must be a multiple of the helical start number.")
       else inr tt.

(** [Helix.positions] and [Helix.rotations] *)
Definition positions (self : Helix) : list vec3 :=
  compute_helical_lattice_positions
    (rise self) (twist self) (n_subunits self / n_start self)
    (subunit_offset self) (n_start self) (degrees self).

Definition rotations (self : Helix) : list mat3 :=
  compute_helical_lattice_rotations
    (twist self) (n_subunits self / n_start self)
    (subunit_rotation self) (n_start self) (degrees self).

(** The mean of the z-coordinates of a list of positions. *)
Definition Rsum (l : list R) : R := fold_right Rplus 0 l.
Definition mean_z (ps : list vec3) : R :=
  Rsum (map vz ps) / INR (List.length ps).

End Helix.

(** ** simulator/assembly/_assembly.py *)

Module Assembly.

Import Linalg3.

(** Modelled from the spec: the pose of the assembly (the pose module is
    not among the sources), an opaque value with [rotate(points)], which
    applies the assembly rotation to each point, [.offset] and
    [.rotation.as_matrix()]. *)
Record Pose : Type := mkPose {
  rotate_point : vec3 -> vec3;
  offset : vec3;
  rotation_as_matrix : mat3
}.

Definition rotate (pose : Pose) (points : list vec3) : list vec3 :=
  map (rotate_point pose) points.

(** [MatrixPose(offset_x=..., offset_y=..., offset_z=..., matrix=...)] *)
Record MatrixPose : Type := mkMatrixPose {
  offset_x : list R;
  offset_y : list R;
  offset_z : list R;
  matrix : list mat3
}.

(** [Assembly.poses], from the [positions] and [rotations] properties. *)
Definition poses (pose : Pose) (positions : list vec3) (rotations : list mat3)
  : MatrixPose :=
  let transformed_positions :=
    map (fun p => vadd p (offset pose)) (rotate pose positions) in
  let transformed_rotations :=
    map (fun R_n => matmul R_n (rotation_as_matrix pose)) rotations in
  mkMatrixPose (map vx transformed_positions)
               (map vy transformed_positions)
               (map vz transformed_positions)
               transformed_rotations.

End Assembly.

(* ================================================================== *)
(** * Part II: properties *)
(* ================================================================== *)

(** ** Direct binning (imaging.py) *)

Section ImagingFacts.

Import Imaging.
Local Open Scope Z_scope.



Lemma clip_nearest_valid (n i : Z) :
  0 < n -> clip i 0 (n - 1) = nearest_valid n i.
Proof.
  intros Hn. unfold clip, nearest_valid.
  destruct (Z.ltb_spec i 0); destruct (Z.leb_spec n i); lia.
Qed.

Lemma nearest_valid_range (n i : Z) : 0 < n -> 0 <= nearest_valid n i < n.
Proof.
  intros Hn. unfold nearest_valid.
  destruct (Z.ltb_spec i 0); destruct (Z.leb_spec n i); lia.
Qed.

Lemma nearest_valid_id (n i : Z) : 0 <= i < n -> nearest_valid n i = i.
Proof.
  intros Hi. unfold nearest_valid.
  destruct (Z.ltb_spec i 0); destruct (Z.leb_spec n i); lia.
Qed.

Lemma add_at_length (i : nat) (w : Q) (arr : list Q) :
  List.length (add_at i w arr) = List.length arr.
Proof.
  revert i; induction arr as [|a arr IH]; intros [|i]; simpl; auto.
Qed.

Lemma scatter_add_length (xs : list Z) :
  forall (ws : list Q) (arr : list Q),
    List.length (scatter_add arr xs ws) = List.length arr.
Proof.
  induction xs as [|x xs IH]; intros [|w ws] arr; simpl; auto.
  rewrite IH. apply add_at_length.
Qed.

Lemma Qsum_add_at (arr : list Q) :
  forall (i : nat) (w : Q),
    (i < List.length arr)%nat -> (Qsum (add_at i w arr) == Qsum arr + w)%Q.
Proof.
  induction arr as [|a arr IH]; intros [|i] w Hi; simpl in *; try lia.
  - ring.
  - rewrite IH by lia. ring.
Qed.

Lemma Qsum_repeat_zero (n : nat) : (Qsum (repeat 0%Q n) == 0)%Q.
Proof. induction n as [|n IH]; simpl; [reflexivity | rewrite IH; ring]. Qed.

(** Every sample whose bin exists adds its weight to the total. *)
Lemma Qsum_scatter_add (xs : list Z) :
  forall (ws : list Q) (arr : list Q),
    List.length xs = List.length ws ->
    Forall (fun x => 0 <= x < Z.of_nat (List.length arr)) xs ->
    (Qsum (scatter_add arr xs ws) == Qsum arr + Qsum ws)%Q.
Proof.
  induction xs as [|x xs IH]; intros [|w ws] arr Hlen Hall; simpl in *;
    try discriminate.
  - ring.
  - inversion Hall as [|? ? Hx Hxs]; subst.
    rewrite IH.
    + rewrite Qsum_add_at by lia. ring.
    + lia.
    + rewrite add_at_length. exact Hxs.
Qed.

Lemma concat_reshape2 (rows cols : nat) :
  forall flat : list Q,
    List.length flat = (rows * cols)%nat ->
    concat (reshape2 rows cols flat) = flat.
Proof.
  induction rows as [|r IH]; intros flat Hlen; simpl in *.
  - destruct flat; [reflexivity | discriminate].
  - rewrite IH.
    + apply firstn_skipn.
    + rewrite length_skipn. lia.
Qed.

Lemma reshape2_length (rows cols : nat) (flat : list Q) :
  List.length (reshape2 rows cols flat) = rows.
Proof. revert flat; induction rows; intros; simpl; auto. Qed.

Lemma reshape2_rows (rows cols : nat) :
  forall flat : list Q,
    List.length flat = (rows * cols)%nat ->
    Forall (fun row => List.length row = cols) (reshape2 rows cols flat).
Proof.
  induction rows as [|r IH]; intros flat Hlen; simpl in *; constructor.
  - rewrite length_firstn. lia.
  - apply IH. rewrite length_skipn. lia.
Qed.

Lemma nth_reshape2 (rows cols : nat) :
  forall (flat : list Q) (a b : nat),
    (a < rows)%nat -> (b < cols)%nat ->
    nth b (nth a (reshape2 rows cols flat) []) 0%Q
    = nth (a * cols + b) flat 0%Q.
Proof.
  induction rows as [|r IH]; intros flat a b Ha Hb; [lia|].
  destruct a as [|a]; simpl.
  - rewrite nth_firstn.
    destruct (Nat.ltb_spec b cols); [reflexivity | lia].
  - rewrite IH by lia. rewrite nth_skipn. f_equal. lia.
Qed.

Lemma nth_add_at (arr : list Q) :
  forall (i j : nat) (w : Q),
    (j < List.length arr)%nat ->
    nth j (add_at i w arr) 0%Q
    = if Nat.eqb i j then (nth j arr 0 + w)%Q else nth j arr 0%Q.
Proof.
  induction arr as [|a arr IH]; intros [|i] [|j] w Hj; simpl in *;
    try lia; try reflexivity.
  apply IH. lia.
Qed.

Lemma flat_index_range (N2 N3 y z : Z) :
  0 < N2 -> 0 < N3 ->
  0 <= ravel_multi_index_clip (y, z) (N2, N3) < N2 * N3.
Proof.
  intros H2 H3. unfold ravel_multi_index_clip.
  rewrite !clip_nearest_valid by assumption.
  pose proof (nearest_valid_range N2 y H2).
  pose proof (nearest_valid_range N3 z H3).
  nia.
Qed.

Lemma flat_index_eq (N3 y z a b : Z) :
  0 <= z < N3 -> 0 <= b < N3 ->
  (y * N3 + z = a * N3 + b) <-> (y = a /\ z = b).
Proof.
  intros Hz Hb. split; [|intros [-> ->]; reflexivity].
  intros E. assert (y = a) by nia. subst. lia.
Qed.

(** Bin [(a, b)] of the scatter-add holds what it held before plus the
    weights of the samples whose nearest valid pixel is [(a, b)]. *)
Lemma nth_scatter_add_binned (N2 N3 a b : Z) :
  0 < N2 -> 0 < N3 -> 0 <= a < N2 -> 0 <= b < N3 ->
  forall (volume : list Q) (coords : list coord) (arr : list Q),
    List.length arr = Z.to_nat (N2 * N3) ->
    (nth (Z.to_nat (a * N3 + b))
         (scatter_add arr
            (map (fun c =>
                    ravel_multi_index_clip (shifted_index (N2, N3) c) (N2, N3))
                 coords)
            volume) 0
     == nth (Z.to_nat (a * N3 + b)) arr 0
        + binned_weight (N2, N3) a b volume coords)%Q.
Proof.
  intros H2 H3 Ha Hb.
  induction volume as [|w ws IH]; intros [|c cs] arr Hlen;
    cbn [scatter_add map binned_weight]; try ring.
  rewrite IH by (rewrite add_at_length; exact Hlen).
  rewrite nth_add_at by (rewrite Hlen; nia).
  destruct (shifted_index (N2, N3) c) as [y z].
  pose proof (flat_index_range N2 N3 y z H2 H3) as Hr.
  unfold ravel_multi_index_clip in *.
  rewrite !clip_nearest_valid in * by assumption.
  pose proof (nearest_valid_range N3 z H3) as Hz.
  pose proof (flat_index_eq N3 (nearest_valid N2 y) (nearest_valid N3 z)
                a b Hz Hb) as Hiff.
  cbn [fst snd].
  match goal with
  | |- context [Nat.eqb ?i ?j] => destruct (Nat.eqb_spec i j) as [E|E]
  end.
  - assert (Hyz : nearest_valid N2 y = a /\ nearest_valid N3 z = b)
      by (apply Hiff; lia).
    destruct Hyz as [-> ->]. rewrite !Z.eqb_refl. cbn [andb]. ring.
  - destruct (Z.eqb_spec (nearest_valid N2 y) a) as [Ey|Ey];
      destruct (Z.eqb_spec (nearest_valid N3 z) b) as [Ez|Ez];
      cbn [andb]; try ring.
    exfalso. apply E. subst. f_equal. lia.
Qed.

Lemma project_succeeds (volume : list Q) (coords : list coord) (N2 N3 : Z) :
  List.length volume = List.length coords ->
  project volume coords (N2, N3)
  = inr (reshape2 (Z.to_nat N2) (Z.to_nat N3)
           (scatter_add (repeat 0%Q (Z.to_nat (N2 * N3)))
              (map (fun c =>
                      ravel_multi_index_clip (shifted_index (N2, N3) c)
                                             (N2, N3))
                   coords)
              volume)).
Proof.
  intros Hlen. unfold project, bincount.
  rewrite length_map, <- Hlen, Nat.eqb_refl. reflexivity.
Qed.

Lemma project_mismatch_raises (volume : list Q) (coords : list coord)
      (shape : Z * Z) :
  List.length volume <> List.length coords ->
  exists msg, project volume coords shape = inl (ValueError msg).
Proof.
  intros Hlen. destruct shape as [N2 N3]. unfold project, bincount.
  rewrite length_map.
  destruct (Nat.eqb_spec (List.length coords) (List.length volume)) as [E|E];
    [congruence | eexists; reflexivity].
Qed.

(** The image has the requested shape, each pixel holds the weights binned
    to it, and nothing is lost: the shared core of the binning results. *)
Lemma project_binned (volume : list Q) (coords : list coord) (N2 N3 : Z) :
  0 < N2 -> 0 < N3 ->
  List.length volume = List.length coords ->
  exists img,
    project volume coords (N2, N3) = inr img
    /\ List.length img = Z.to_nat N2
    /\ Forall (fun row => List.length row = Z.to_nat N3) img
    /\ (forall a b, 0 <= a < N2 -> 0 <= b < N3 ->
                    (pixel img a b
                     == binned_weight (N2, N3) a b volume coords)%Q)
    /\ (sum2 img == Qsum volume)%Q.
Proof.
  intros H2 H3 Hlen. eexists. split; [apply project_succeeds; exact Hlen|].
  set (xs := map _ coords).
  set (flat := scatter_add _ xs volume).
  assert (Hflat : List.length flat = (Z.to_nat N2 * Z.to_nat N3)%nat).
  { unfold flat. rewrite scatter_add_length, repeat_length. nia. }
  split; [apply reshape2_length|].
  split; [apply reshape2_rows; exact Hflat|].
  split.
  - intros a b Ha Hb. unfold pixel.
    destruct (Z.ltb_spec a 0); [lia|]. destruct (Z.ltb_spec b 0); [lia|].
    simpl. rewrite nth_reshape2 by lia.
    replace (Z.to_nat a * Z.to_nat N3 + Z.to_nat b)%nat
      with (Z.to_nat (a * N3 + b)) by nia.
    unfold flat, xs.
    rewrite (nth_scatter_add_binned N2 N3 a b H2 H3 Ha Hb)
      by apply repeat_length.
    rewrite nth_repeat. ring.
  - unfold sum2. rewrite concat_reshape2 by exact Hflat.
    unfold flat. rewrite Qsum_scatter_add.
    + rewrite Qsum_repeat_zero. ring.
    + unfold xs. rewrite length_map. symmetry. exact Hlen.
    + unfold xs. apply Forall_forall. intros x Hx.
      apply in_map_iff in Hx. destruct Hx as [c [<- _]].
      rewrite repeat_length.
      destruct (shifted_index (N2, N3) c) as [y z].
      pose proof (flat_index_range N2 N3 y z H2 H3). lia.
Qed.

End ImagingFacts.

Lemma pixel_outside (img : list (list Q)) (N2 N3 a b : Z) :
  List.length img = Z.to_nat N2 ->
  Forall (fun row => List.length row = Z.to_nat N3) img ->
  ~ (0 <= a < N2 /\ 0 <= b < N3)%Z ->
  Imaging.pixel img a b = 0%Q.
Proof.
  intros Hrows Hcols Hout. unfold Imaging.pixel.
  destruct (Z.ltb_spec a 0); [reflexivity|].
  destruct (Z.ltb_spec b 0); [reflexivity|]. cbn [orb].
  destruct (Z.ltb_spec a N2) as [Ha|Ha].
  - assert (Hin : In (nth (Z.to_nat a) img []) img)
      by (apply nth_In; lia).
    rewrite Forall_forall in Hcols. specialize (Hcols _ Hin).
    apply nth_overflow. lia.
  - rewrite (nth_overflow img) by lia. destruct (Z.to_nat b); reflexivity.
Qed.




(** ** NUFFT projection (_nufft_project.py) *)

Section NufftFacts.

Import Nufft.
Lemma half_lt (n : nat) : (0 < n)%nat -> (n / 2 < n)%nat.
Proof. intros Hn. apply Nat.div_lt; lia. Qed.

Lemma update_at_length {A : Type} (f : A -> A) (l : list A) :
  forall i, List.length (update_at i f l) = List.length l.
Proof. induction l as [|a l IH]; intros [|i]; simpl; auto. Qed.

Lemma nth_update_at_same {A : Type} (f : A -> A) (d : A) (l : list A) :
  forall i, (i < List.length l)%nat ->
            nth i (update_at i f l) d = f (nth i l d).
Proof.
  induction l as [|a l IH]; intros [|i] Hi; simpl in *; try lia; auto.
  apply IH. lia.
Qed.

Lemma nth_update_at_other {A : Type} (f : A -> A) (d : A) (l : list A) :
  forall i j, i <> j -> nth j (update_at i f l) d = nth j l d.
Proof.
  induction l as [|a l IH]; intros [|i] [|j] Hij; simpl; try lia; auto.
Qed.

Lemma Forall_update_at {A : Type} (P : A -> Prop) (f : A -> A) (l : list A) :
  Forall P l -> (forall a, P a -> P (f a)) ->
  forall i, Forall P (update_at i f l).
Proof.
  intros Hl Hf. induction Hl as [|a l Ha Hl IH]; intros [|i]; simpl;
    constructor; auto.
Qed.

Lemma ifftshift1_length {A : Type} (l : list A) :
  List.length (ifftshift1 l) = List.length l.
Proof.
  unfold ifftshift1. rewrite length_app, length_skipn, length_firstn.
  destruct l as [|a l]; [reflexivity|].
  assert (H : (List.length (a :: l) / 2 < List.length (a :: l))%nat)
    by (apply half_lt; simpl; lia).
  revert H. generalize (List.length (a :: l) / 2)%nat. intros k H. lia.
Qed.

Lemma nth_ifftshift1_first {A : Type} (d : A) (l : list A) :
  nth 0 (ifftshift1 l) d = nth (List.length l / 2) l d.
Proof.
  destruct l as [|a l]; [reflexivity|].
  unfold ifftshift1.
  assert (H : (List.length (a :: l) / 2 < List.length (a :: l))%nat)
    by (apply half_lt; simpl; lia).
  revert H. generalize (List.length (a :: l) / 2)%nat. intros k H.
  rewrite app_nth1 by (rewrite length_skipn; lia).
  rewrite nth_skipn. f_equal. lia.
Qed.

Lemma norm_index_last (n : nat) :
  (0 < n)%nat -> norm_index n (-1) = Some (n - 1)%nat.
Proof.
  intros Hn. unfold norm_index. cbn [Z.ltb Z.compare].
  destruct (Z.leb_spec 0 (-1 + Z.of_nat n));
    destruct (Z.ltb_spec (-1 + Z.of_nat n) (Z.of_nat n));
    cbn [andb]; try lia.
  f_equal. lia.
Qed.

Lemma norm_index_inside (n : nat) (i : Z) :
  (0 <= i < Z.of_nat n)%Z -> norm_index n i = Some (Z.to_nat i).
Proof.
  intros Hi. unfold norm_index.
  destruct (Z.ltb_spec i 0); [lia|].
  destruct (Z.leb_spec 0 i); destruct (Z.ltb_spec i (Z.of_nat n));
    cbn [andb]; try lia.
  reflexivity.
Qed.

Lemma set_at_length {A : Type} (j : Z) (v : A) (row : list A) :
  List.length (set_at j v row) = List.length row.
Proof.
  unfold set_at. destruct (norm_index _ j); [apply update_at_length | auto].
Qed.

Lemma slice_to_length {A : Type} (stop : Z) (row : list A) :
  (0 <= stop <= Z.of_nat (List.length row))%Z ->
  List.length (slice_to stop row) = Z.to_nat stop.
Proof.
  intros Hs. unfold slice_to. destruct (Z.ltb_spec stop 0); [lia|].
  rewrite length_firstn. lia.
Qed.

Lemma nth_slice_to {A : Type} (stop : Z) (row : list A) (d : A) (i : nat) :
  (Z.of_nat i < stop)%Z -> nth i (slice_to stop row) d = nth i row d.
Proof.
  intros Hs. unfold slice_to. destruct (Z.ltb_spec stop 0); [lia|].
  rewrite nth_firstn. destruct (Nat.ltb_spec i (Z.to_nat stop)); [auto|lia].
Qed.

Lemma Forall_ifftshift1 {A : Type} (P : A -> Prop) (l : list A) :
  Forall P l -> Forall P (ifftshift1 l).
Proof.
  intros H. unfold ifftshift1.
  rewrite <- (firstn_skipn (List.length l / 2) l) in H.
  apply Forall_app in H. destruct H as [H1 H2].
  apply Forall_app. split; assumption.
Qed.

Lemma ifftshift_shape {A : Type} (shape : Z * Z) (img : list (list A)) :
  has_shape shape img -> has_shape shape (ifftshift img).
Proof.
  intros [Hr Hc]. unfold ifftshift, has_shape. split.
  - rewrite ifftshift1_length, length_map. exact Hr.
  - apply Forall_ifftshift1, Forall_map.
    revert Hc. apply Forall_impl. intros row Hrow.
    rewrite ifftshift1_length. exact Hrow.
Qed.

(** The entry that [ifftshift] brings to the corner. *)
Lemma ifftshift_corner {A : Type} (d : A) (img : list (list A)) :
  nth 0 (nth 0 (ifftshift img) []) d
  = nth (List.length (nth (List.length img / 2) img []) / 2)
        (nth (List.length img / 2) img []) d.
Proof.
  unfold ifftshift. rewrite nth_ifftshift1_first, length_map.
  change (@nil A) with (ifftshift1 (@nil A)) at 1.
  rewrite map_nth. apply nth_ifftshift1_first.
Qed.

Lemma nth_error_update_at_same {A : Type} (f : A -> A) (l : list A) :
  forall i, nth_error (update_at i f l) i = option_map f (nth_error l i).
Proof. induction l as [|a l IH]; intros [|i]; simpl; auto. Qed.

Lemma nth_error_update_at_other {A : Type} (f : A -> A) (l : list A) :
  forall i j, i <> j -> nth_error (update_at i f l) j = nth_error l j.
Proof.
  induction l as [|a l IH]; intros [|i] [|j] Hij; simpl; try lia; auto.
Qed.

Lemma shape_row {A : Type} (shape : Z * Z) (img : list (list A)) (i : nat) :
  has_shape shape img -> (i < Z.to_nat (fst shape))%nat ->
  List.length (nth i img []) = Z.to_nat (snd shape).
Proof.
  intros [Hr Hc] Hi. rewrite Forall_forall in Hc.
  apply Hc, nth_In. lia.
Qed.

Lemma set_col_shape {A : Type} (shape : Z * Z) (j : Z) (v : A)
      (img : list (list A)) :
  has_shape shape img -> has_shape shape (set_col j v img).
Proof.
  intros [Hr Hc]. unfold set_col. split.
  - rewrite length_map. exact Hr.
  - apply Forall_map. revert Hc. apply Forall_impl. intros row Hrow.
    rewrite set_at_length. exact Hrow.
Qed.

Lemma set_row_shape {A : Type} (shape : Z * Z) (i : Z) (v : A)
      (img : list (list A)) :
  has_shape shape img -> has_shape shape (set_row i v img).
Proof.
  intros [Hr Hc]. unfold set_row.
  destruct (norm_index _ i); [|split; assumption]. split.
  - rewrite update_at_length. exact Hr.
  - apply Forall_update_at; [exact Hc|].
    intros row Hrow. rewrite length_map. exact Hrow.
Qed.

(** After [.at[:, -1].set(v)] the last entry of every row is [v]. *)
Lemma set_col_last {A : Type} (shape : Z * Z) (v : A) (img : list (list A)) :
  has_shape shape img -> (0 < snd shape)%Z ->
  Forall (fun row => nth_error row (Z.to_nat (snd shape - 1)) = Some v)
         (set_col (-1) v img).
Proof.
  intros [Hr Hc] Hpos. unfold set_col. apply Forall_map.
  revert Hc. apply Forall_impl. intros row Hrow.
  unfold set_at. rewrite norm_index_last by lia.
  replace (Z.to_nat (snd shape - 1)) with (List.length row - 1)%nat by lia.
  rewrite nth_error_update_at_same.
  destruct (nth_error row (List.length row - 1)) eqn:E; [reflexivity|].
  apply nth_error_None in E. lia.
Qed.

(** [.at[i, :].set(v)] keeps an entry that is already [v]. *)
Lemma set_row_keeps {A : Type} (i : Z) (k : nat) (v : A)
      (img : list (list A)) :
  Forall (fun row => nth_error row k = Some v) img ->
  Forall (fun row => nth_error row k = Some v) (set_row i v img).
Proof.
  intros H. unfold set_row. destruct (norm_index _ i); [|exact H].
  apply Forall_update_at; [exact H|].
  intros row Hrow. rewrite nth_error_map, Hrow. reflexivity.
Qed.

(** After [.at[i, :].set(v)] row [i] holds [v] everywhere. *)
Lemma set_row_row {A : Type} (i : Z) (v : A) (img : list (list A)) :
  (0 <= i < Z.of_nat (List.length img))%Z ->
  exists row,
    nth_error (set_row i v img) (Z.to_nat i) = Some row
    /\ Forall (fun c => c = v) row.
Proof.
  intros Hi. unfold set_row. rewrite norm_index_inside by exact Hi.
  rewrite nth_error_update_at_same.
  destruct (nth_error img (Z.to_nat i)) as [row|] eqn:E.
  - exists (map (fun _ => v) row). split; [reflexivity|].
    apply Forall_map, Forall_forall. reflexivity.
  - apply nth_error_None in E. lia.
Qed.

End NufftFacts.

Lemma nth_map_inside {A B : Type} (f : A -> B) (l : list A) (n : nat)
      (d : B) (d' : A) :
  (n < List.length l)%nat -> nth n (map f l) d = f (nth n l d').
Proof.
  intros Hn. rewrite (nth_indep _ d (f d')) by (rewrite length_map; exact Hn).
  apply map_nth.
Qed.

Lemma nudft1_shape (shape : Z * Z) (c : list Nufft.cplx) (p q : list R)
      (eps : R) :
  Nufft.has_shape shape (Nufft.nudft1 shape c p q eps).
Proof.
  unfold Nufft.nudft1, Nufft.has_shape, Nufft.modes, Nufft.range. split.
  - rewrite !length_map, length_seq. reflexivity.
  - apply Forall_map, Forall_forall. intros k1 _.
    rewrite !length_map, length_seq. reflexivity.
Qed.

(** C5: whenever [nufft1] returns an array of the requested shape
    (M1, M2), [project_with_nufft] returns an array of shape
    (M1, M2//2 + 1) whose corner entry is entry (M1//2, M2//2) of the
    transform (its zero-frequency mode); if M2 is even every row ends in
    zero, and if M1 is even row M1//2 is zero throughout. *)
Theorem project_with_nufft_shape_and_nyquist
        (C : Type) (complex_of : R -> C) (czero : C)
        (nufft1 : Z * Z -> list C -> list R -> list R -> R -> list (list C))
        (weights : list R) (coordinate_list : list (list R))
        (M1 M2 : Z) (eps : R) :
  (0 < M1)%Z -> (0 < M2)%Z ->
  (forall shape w y x e, Nufft.has_shape shape (nufft1 shape w y x e)) ->
  let raw :=
    Nufft.nufft1_call C complex_of nufft1 weights coordinate_list
                      (M1, M2) eps in
  let out :=
    Nufft.project_with_nufft C complex_of czero nufft1
                             weights coordinate_list (M1, M2) eps in
  Nufft.has_shape (M1, M2 / 2 + 1)%Z out
  /\ (forall d,
         nth 0 (nth 0 out []) d
         = nth (Z.to_nat (M2 / 2)) (nth (Z.to_nat (M1 / 2)) raw []) d)
  /\ ((M2 mod 2 = 0)%Z ->
      Forall (fun row => nth_error row (Z.to_nat (M2 / 2)) = Some czero) out)
  /\ ((M1 mod 2 = 0)%Z ->
      exists row,
        nth_error out (Z.to_nat (M1 / 2)) = Some row
        /\ Forall (fun c => c = czero) row).
Proof.
  intros H1 H2 Hnufft raw out.
  assert (Hraw : Nufft.has_shape (M1, M2) raw) by apply Hnufft.
  assert (Hh1 : (0 <= M1 / 2 < M1)%Z)
    by (split; [apply Z.div_pos | apply Z.div_lt_upper_bound]; lia).
  assert (Hh2 : (0 <= M2 / 2 < M2)%Z)
    by (split; [apply Z.div_pos | apply Z.div_lt_upper_bound]; lia).
  set (P0 := map (Nufft.slice_to (M2 / 2 + 1)%Z) (Nufft.ifftshift raw)).
  set (P1 := if (M2 mod 2 =? 0)%Z then Nufft.set_col (-1) czero P0 else P0).
  assert (Hout : out = if (M1 mod 2 =? 0)%Z
                       then Nufft.set_row (M1 / 2) czero P1 else P1)
    by reflexivity.
  clearbody out. subst out.
  assert (HP0 : Nufft.has_shape (M1, M2 / 2 + 1)%Z P0).
  { destruct (ifftshift_shape _ _ Hraw) as [Hr Hc]. split.
    - unfold P0. rewrite length_map. exact Hr.
    - unfold P0. apply Forall_map. revert Hc. apply Forall_impl.
      cbn [fst snd]. intros row Hrow. apply slice_to_length. lia. }
  assert (HP1 : Nufft.has_shape (M1, M2 / 2 + 1)%Z P1).
  { unfold P1. destruct (M2 mod 2 =? 0)%Z;
      [apply set_col_shape|]; exact HP0. }
  assert (Hcorner0 : forall d,
             nth 0 (nth 0 P0 []) d
             = nth (Z.to_nat (M2 / 2)) (nth (Z.to_nat (M1 / 2)) raw []) d).
  { intros d. unfold P0.
    destruct (ifftshift_shape _ _ Hraw) as [Hsr _]. cbn [fst] in Hsr.
    rewrite (nth_map_inside _ _ _ _ []) by lia.
    rewrite nth_slice_to by lia.
    rewrite ifftshift_corner.
    pose proof Hraw as [Hr Hc]. cbn [fst snd] in *.
    assert (Hd1 : (Z.to_nat M1 / 2)%nat = Z.to_nat (M1 / 2))
      by (rewrite Z2Nat.inj_div by lia; reflexivity).
    assert (Hd2 : (Z.to_nat M2 / 2)%nat = Z.to_nat (M2 / 2))
      by (rewrite Z2Nat.inj_div by lia; reflexivity).
    rewrite Hr, Hd1.
    rewrite (shape_row (M1, M2) raw) by (try exact Hraw; cbn [fst]; lia).
    cbn [snd]. rewrite Hd2. reflexivity. }
  assert (Hcorner1 : forall d, nth 0 (nth 0 P1 []) d = nth 0 (nth 0 P0 []) d).
  { intros d. unfold P1.
    destruct (Z.eqb_spec (M2 mod 2) 0) as [Ev|Od]; [|reflexivity].
    unfold Nufft.set_col.
    change (@nil C) with (Nufft.set_at (-1) czero (@nil C)) at 1.
    rewrite map_nth. unfold Nufft.set_at.
    assert (Hlen : List.length (nth 0 P0 []) = Z.to_nat (M2 / 2 + 1))
      by (apply (shape_row _ _ _ HP0); cbn [fst]; lia).
    assert (1 <= M2 / 2)%Z by (Z.div_mod_to_equations; lia).
    rewrite norm_index_last by lia.
    apply nth_update_at_other. lia. }
  repeat split.
  - destruct (M1 mod 2 =? 0)%Z; [apply set_row_shape|]; apply HP1.
  - destruct (M1 mod 2 =? 0)%Z; [apply set_row_shape|]; apply HP1.
  - intros d. rewrite <- Hcorner0, <- Hcorner1.
    destruct (Z.eqb_spec (M1 mod 2) 0) as [Ev|Od]; [|reflexivity].
    unfold Nufft.set_row. destruct HP1 as [Hr _]. cbn [fst] in Hr.
    rewrite norm_index_inside by lia.
    assert (1 <= M1 / 2)%Z by (Z.div_mod_to_equations; lia).
    rewrite nth_update_at_other by lia. reflexivity.
  - intros Ev.
    assert (Hlast : Forall (fun row => nth_error row (Z.to_nat (M2 / 2))
                                       = Some czero) P1).
    { unfold P1. rewrite (proj2 (Z.eqb_eq _ _) Ev).
      pose proof (set_col_last (M1, M2 / 2 + 1)%Z czero P0 HP0) as Hl.
      cbn [snd] in Hl.
      replace (M2 / 2 + 1 - 1)%Z with (M2 / 2)%Z in Hl by lia.
      apply Hl. lia. }
    destruct (M1 mod 2 =? 0)%Z; [apply set_row_keeps|]; exact Hlast.
  - intros Ev. rewrite (proj2 (Z.eqb_eq _ _) Ev).
    apply set_row_row. destruct HP1 as [Hr _]. cbn [fst] in Hr. lia.
Qed.

Lemma project_with_nufft_shape_and_nyquist_witness :
  let raw :=
    Nufft.nufft1_call Nufft.cplx Nufft.cplx_of Nufft.nudft1
                      [1; 2]%R [[0; 1; 5]; [3; -1; 2]]%R (4, 6)%Z 1%R in
  let out :=
    Nufft.project_with_nufft Nufft.cplx Nufft.cplx_of (0, 0)%R Nufft.nudft1
                             [1; 2]%R [[0; 1; 5]; [3; -1; 2]]%R (4, 6)%Z 1%R in
  Nufft.has_shape (4, 6 / 2 + 1)%Z out
  /\ (forall d,
         nth 0 (nth 0 out []) d
         = nth (Z.to_nat (6 / 2)) (nth (Z.to_nat (4 / 2)) raw []) d)
  /\ ((6 mod 2 = 0)%Z ->
      Forall (fun row => nth_error row (Z.to_nat (6 / 2)) = Some (0, 0)%R) out)
  /\ ((4 mod 2 = 0)%Z ->
      exists row,
        nth_error out (Z.to_nat (4 / 2)) = Some row
        /\ Forall (fun c => c = (0, 0)%R) row).
Proof.
  apply (project_with_nufft_shape_and_nyquist
           Nufft.cplx Nufft.cplx_of (0, 0)%R Nufft.nudft1
           [1; 2]%R [[0; 1; 5]; [3; -1; 2]]%R 4 6 1%R);
    [lia | lia | intros; apply nudft1_shape].
Defined.

(** ** The Gaussian distribution (_gaussian_distributions.py) *)

Section GaussianFacts.

Import Gaussian.
Local Open Scope Q_scope.

(** What [sample] computes: the chain of operators on the rendered image
    plus, at every mode, the draw multiplied by the variance there. *)
Lemma sample_computes (K : Type) (normal : K -> list Z -> ndarray Q)
      (self : IndependentFourierGaussian) (key : K) (kwargs : option bool) :
  sample K normal self key kwargs
  = ([CallVariance; CallNormal; CallRender; CallCropAndApplyOperators],
     inr (crop_and_apply_operators (pipeline self) kwargs
            (map2 Cadd_real (render (pipeline self))
               (map2 Qmult
                  (evaluate (variance self)
                     (padded_frequency_grid_in_angstroms (pipeline self)))
                  (normal key
                     (drop_last_axis
                        (gshape (padded_frequency_grid_in_angstroms
                                   (pipeline self))))))))).
Proof. reflexivity. Qed.

Lemma log_probability_matching (self : IndependentFourierGaussian)
      (observed : ndarray complex) :
  shape observed
  = drop_last_axis (gshape (padded_frequency_grid_in_angstroms (pipeline self))) ->
  log_probability self observed
  = ([CallRender; CallCropAndApplyOperators; CallVariance],
     inr (let residuals := cropped_residuals self observed in
          re (Csum (map2 Cdiv_real
                      (map2 Cmul residuals (amap conjugate residuals))
                      (amap (Qmult 2)
                         (evaluate (variance self)
                            (frequency_grid_in_angstroms (pipeline self))))))
          / inject_Z (size residuals))).
Proof.
  intros Hshape. unfold log_probability.
  destruct (list_eq_dec Z.eq_dec _ _) as [_|Hne]; [reflexivity | contradiction].
Qed.

Lemma log_probability_mismatching (self : IndependentFourierGaussian)
      (observed : ndarray complex) :
  shape observed
  <> drop_last_axis (gshape (padded_frequency_grid_in_angstroms (pipeline self))) ->
  log_probability self observed
  = ([], inl (ValueError "Shape of observed must match ImageConfig.padded_shape")).
Proof.
  intros Hshape. unfold log_probability.
  destruct (list_eq_dec Z.eq_dec _ _) as [He|_]; [contradiction | reflexivity].
Qed.

(** The real part of the code's complex sum is the sum of the squared
    moduli over twice the variances. *)
Lemma re_sum_residuals (var : FourierOperatorLike) (rs : list complex) :
  forall qs : list freq,
    re (fold_right Cadd (mkC 0 0)
          (map (fun ab => Cdiv_real (fst ab) (snd ab))
               (combine
                  (map (fun ab => Cmul (fst ab) (snd ab))
                       (combine rs (map conjugate rs)))
                  (map (Qmult 2) (map var qs)))))
    == sum_over_modes rs qs var.
Proof.
  induction rs as [|r rs IH]; intros [|q qs]; simpl; try reflexivity.
  rewrite IH. unfold abs2, Qdiv. ring.
Qed.

End GaussianFacts.

(** C1 (the code departs from it): at a mode of variance 4 and a draw of 1,
    [sample] adds 4 to the rendered image, the draw times the variance,
    where a noise of standard deviation sqrt(4) = 2 would add 2. *)
Theorem sample_scales_draw_by_variance :
  snd (Gaussian.sample unit Gaussian.unit_draw Gaussian.variance_four tt None)
  = inr (Gaussian.mkArray [1; 1]%Z [Gaussian.mkC 4 0])
  /\ Gaussian.variance Gaussian.variance_four (0, 0) == 2 * 2
  /\ ~ (4 == 0 + 2 * 1).
Proof.
  split; [reflexivity|]. split; [reflexivity|]. discriminate.
Qed.

(** C3: when [observed] has the padded shape and the cropped residuals have
    one entry per mode of the cropped frequency grid, [log_probability]
    returns the sum over that grid of |residual|^2 / (2 variance(freq)),
    divided by the number of its modes, the residuals being the rendered
    image minus [observed] through the crop, mask and filter chain. *)
Theorem log_probability_is_normalized_residual_energy
        (self : Gaussian.IndependentFourierGaussian)
        (observed : Gaussian.ndarray Gaussian.complex) :
  Gaussian.shape observed
  = Gaussian.drop_last_axis
      (Gaussian.gshape
         (Gaussian.padded_frequency_grid_in_angstroms (Gaussian.pipeline self))) ->
  List.length (Gaussian.data (Gaussian.cropped_residuals self observed))
  = List.length
      (Gaussian.modes
         (Gaussian.frequency_grid_in_angstroms (Gaussian.pipeline self))) ->
  exists v : Q,
    snd (Gaussian.log_probability self observed) = inr v
    /\ v == Gaussian.spec_log_probability
              (Gaussian.data (Gaussian.cropped_residuals self observed))
              (Gaussian.modes
                 (Gaussian.frequency_grid_in_angstroms (Gaussian.pipeline self)))
              (Gaussian.variance self).
Proof.
  intros Hshape Hsize.
  rewrite (log_probability_matching self observed Hshape).
  eexists. split; [reflexivity|].
  cbv zeta. unfold Gaussian.spec_log_probability, Gaussian.size.
  rewrite Hsize. unfold Gaussian.Csum, Gaussian.map2, Gaussian.amap,
    Gaussian.evaluate. cbn [Gaussian.data].
  rewrite re_sum_residuals. reflexivity.
Qed.

Lemma log_probability_is_normalized_residual_energy_witness :
  exists v : Q,
    snd (Gaussian.log_probability
           Gaussian.variance_four
           (Gaussian.mkArray [1; 1]%Z [Gaussian.mkC 3 4])) = inr v
    /\ v == Gaussian.spec_log_probability
              (Gaussian.data
                 (Gaussian.cropped_residuals
                    Gaussian.variance_four
                    (Gaussian.mkArray [1; 1]%Z [Gaussian.mkC 3 4])))
              (Gaussian.modes
                 (Gaussian.frequency_grid_in_angstroms
                    (Gaussian.pipeline Gaussian.variance_four)))
              (Gaussian.variance Gaussian.variance_four).
Proof.
  apply (log_probability_is_normalized_residual_energy
           Gaussian.variance_four
           (Gaussian.mkArray [1; 1]%Z [Gaussian.mkC 3 4]));
    reflexivity.
Defined.

(** C9: [log_probability] raises its shape error exactly when
    [observed.shape] differs from the padded frequency grid's shape without
    its last axis, and then it has called neither the pipeline nor the
    variance operator. *)
Theorem log_probability_shape_error
        (self : Gaussian.IndependentFourierGaussian)
        (observed : Gaussian.ndarray Gaussian.complex) :
  ((exists e, snd (Gaussian.log_probability self observed) = inl e)
   <-> Gaussian.shape observed
       <> Gaussian.drop_last_axis
            (Gaussian.gshape
               (Gaussian.padded_frequency_grid_in_angstroms
                  (Gaussian.pipeline self))))
  /\ (Gaussian.shape observed
      <> Gaussian.drop_last_axis
           (Gaussian.gshape
              (Gaussian.padded_frequency_grid_in_angstroms
                 (Gaussian.pipeline self))) ->
      Gaussian.log_probability self observed
      = ([], inl (ValueError
                    "Shape of observed must match ImageConfig.padded_shape"))).
Proof.
  split; [split|].
  - intros [e He] Heq.
    rewrite (log_probability_matching self observed Heq) in He.
    discriminate He.
  - intros Hne. rewrite (log_probability_mismatching self observed Hne).
    eexists. reflexivity.
  - apply log_probability_mismatching.
Qed.

(** ** Rotation matrices and the helical lattice *)

Section GeometryFacts.

Import Linalg3.
Local Open Scope R_scope.

Lemma matmul_assoc (a b c : mat3) :
  matmul (matmul a b) c = matmul a (matmul b c).
Proof. mat_ring. Qed.

Lemma transpose_matmul (a b : mat3) :
  transpose (matmul a b) = matmul (transpose b) (transpose a).
Proof. mat_ring. Qed.

Lemma matmul_eye_l (a : mat3) : matmul eye a = a.
Proof. mat_ring. Qed.

Lemma matmul_eye_r (a : mat3) : matmul a eye = a.
Proof. mat_ring. Qed.

Lemma det_matmul (a b : mat3) : det (matmul a b) = det a * det b.
Proof. mat_ring. Qed.

Lemma orthonormal_matmul (a b : mat3) :
  orthonormal a -> orthonormal b -> orthonormal (matmul a b).
Proof.
  intros [Ha1 Ha2] [Hb1 Hb2]. unfold orthonormal.
  rewrite transpose_matmul. split.
  - rewrite matmul_assoc, <- (matmul_assoc (transpose a) a b).
    rewrite Ha1, matmul_eye_l. exact Hb1.
  - rewrite matmul_assoc, <- (matmul_assoc b (transpose b) (transpose a)).
    rewrite Hb2, matmul_eye_l. exact Ha2.
Qed.

Lemma is_rotation_matmul (a b : mat3) :
  is_rotation a -> is_rotation b -> is_rotation (matmul a b).
Proof.
  intros [Ha Da] [Hb Db]. split.
  - apply orthonormal_matmul; assumption.
  - rewrite det_matmul, Da, Db. ring.
Qed.

Lemma is_rotation_eye : is_rotation eye.
Proof.
  split; [split|]; mat_unfold; pair_eq; ring.
Qed.

Lemma is_rotation_screw (a : R) :
  is_rotation (Helix.screw_rotation (cos a) (sin a)).
Proof.
  pose proof (sin2_cos2 a) as H. unfold Rsqr in H.
  unfold Helix.screw_rotation.
  split; [split|]; mat_unfold; pair_eq; lra.
Qed.

Lemma vz_matvec_screw (c s : R) (p : vec3) :
  vz (matvec (Helix.screw_rotation c s) p) = vz p.
Proof. unfold Helix.screw_rotation. mat_cases. mat_unfold. ring. Qed.

(** ** The helical lattice (_helix.py) *)

Lemma range_length (n : Z) : List.length (Helix.range n) = Z.to_nat n.
Proof. unfold Helix.range. rewrite length_map, length_seq. reflexivity. Qed.

Lemma arange_length (n : Z) : List.length (Helix.arange n) = Z.to_nat n.
Proof. unfold Helix.arange. rewrite length_map. apply range_length. Qed.

Lemma symmetry_angles_length (n : Z) :
  List.length (Helix.symmetry_angles n) = Z.to_nat n.
Proof. unfold Helix.symmetry_angles. rewrite length_map. apply range_length. Qed.

Lemma length_flat_map_rows {X Y : Type} (f : X -> list Y) (m : nat)
      (l : list X) :
  (forall a, List.length (f a) = m) ->
  List.length (flat_map f l) = (List.length l * m)%nat.
Proof.
  intros Hf. induction l as [|a l IH]; simpl; [reflexivity|].
  rewrite length_app, Hf, IH. reflexivity.
Qed.

Lemma Rsum_app (l1 l2 : list R) :
  Helix.Rsum (l1 ++ l2) = Helix.Rsum l1 + Helix.Rsum l2.
Proof.
  induction l1 as [|a l1 IH]; simpl; [ring | rewrite IH; ring].
Qed.

Lemma Rsum_concat_repeat (zs : list R) (j : nat) :
  Helix.Rsum (concat (repeat zs j)) = INR j * Helix.Rsum zs.
Proof.
  induction j as [|j IH]; [simpl; ring|].
  rewrite S_INR. cbn [repeat concat]. rewrite Rsum_app, IH. ring.
Qed.

(** The sum of an arithmetic progression over [arange]. *)
Lemma Rsum_progression (a dz : R) (k : nat) :
  Helix.Rsum (map (fun i => a + i * dz)
                  (map IZR (map Z.of_nat (seq 0 k))))
  = INR k * a + dz * (INR k * (INR k - 1) / 2).
Proof.
  induction k as [|k IH]; [simpl; field|].
  rewrite seq_S, !map_app, Rsum_app, IH, S_INR. cbn [map Helix.Rsum fold_right].
  rewrite Nat.add_0_l, <- INR_IZR_INZ. field.
Qed.

Lemma vz_ith_position (i theta dz : R) (r_0 : vec3) (N : Z) :
  vz (Helix.compute_ith_subunit_position_in_subhelix i theta dz r_0 N)
  = vz r_0 + i * dz - dz * IZR (N - 1) / 2.
Proof.
  unfold Helix.compute_ith_subunit_position_in_subhelix,
    Helix.screw_rotation.
  mat_cases. mat_unfold. field.
Qed.

(** The z-coordinates of the lattice: each of the [n_start] sub-helices
    repeats the profile [z_0 + i * rise - rise * (m - 1) / 2]. *)
Lemma positions_z (rise twist : R) (m : Z) (r_0 : vec3) (n : Z)
      (degrees : bool) :
  map vz (Helix.compute_helical_lattice_positions rise twist m r_0 n degrees)
  = concat
      (repeat
         (map (fun i => vz r_0 + i * rise - rise * IZR (m - 1) / 2)
              (Helix.arange m))
         (Z.to_nat n)).
Proof.
  unfold Helix.compute_helical_lattice_positions.
  rewrite <- symmetry_angles_length.
  induction (Helix.symmetry_angles n) as [|a l IH]; [reflexivity|].
  cbn [flat_map List.length repeat concat].
  rewrite map_app, IH. f_equal.
  unfold Helix.compute_helix_subunit_positions_per_start.
  rewrite !map_map. apply map_ext. intros i.
  rewrite vz_matvec_screw. apply vz_ith_position.
Qed.

Lemma positions_length (rise twist : R) (m : Z) (r_0 : vec3) (n : Z)
      (degrees : bool) :
  List.length
    (Helix.compute_helical_lattice_positions rise twist m r_0 n degrees)
  = (Z.to_nat n * Z.to_nat m)%nat.
Proof.
  unfold Helix.compute_helical_lattice_positions.
  rewrite (length_flat_map_rows _ (Z.to_nat m)).
  - rewrite symmetry_angles_length. reflexivity.
  - intros a. unfold Helix.compute_helix_subunit_positions_per_start.
    rewrite !length_map. apply arange_length.
Qed.

Lemma rotations_length (twist : R) (m : Z) (R_0 : mat3) (n : Z)
      (degrees : bool) :
  List.length (Helix.compute_helical_lattice_rotations twist m R_0 n degrees)
  = (Z.to_nat n * Z.to_nat m)%nat.
Proof.
  unfold Helix.compute_helical_lattice_rotations.
  rewrite (length_flat_map_rows _ (Z.to_nat m)).
  - rewrite symmetry_angles_length. reflexivity.
  - intros a. unfold Helix.compute_helix_subunit_rotations_per_start.
    rewrite !length_map. apply arange_length.
Qed.

(** The mean z-coordinate of the lattice is the z-coordinate of the initial
    displacement. *)
Lemma positions_mean_z (rise twist : R) (m : Z) (r_0 : vec3) (n : Z)
      (degrees : bool) :
  (1 <= n)%Z -> (1 <= m)%Z ->
  Helix.mean_z
    (Helix.compute_helical_lattice_positions rise twist m r_0 n degrees)
  = vz r_0.
Proof.
  intros Hn Hm. unfold Helix.mean_z.
  rewrite positions_z, positions_length, Rsum_concat_repeat.
  unfold Helix.arange, Helix.range.
  rewrite (map_ext _ (fun i => (vz r_0 - rise * IZR (m - 1) / 2) + i * rise))
    by (intros; ring).
  rewrite Rsum_progression, mult_INR.
  assert (Hk : INR (Z.to_nat m) = IZR m)
    by (rewrite INR_IZR_INZ, Z2Nat.id by lia; reflexivity).
  assert (Hj : INR (Z.to_nat n) <> 0) by (apply not_0_INR; lia).
  assert (Hk0 : INR (Z.to_nat m) <> 0) by (apply not_0_INR; lia).
  rewrite minus_IZR, <- Hk. field. split; assumption.
Qed.

End GeometryFacts.

(** C2 (as amended): for n_start >= 1 and n_subunits_per_start >= 1 the
    lattice positions and rotations each have n_start * n_subunits_per_start
    rows; subunit i of every sub-helix has the z-coordinate
    z_0 + i * rise - rise * (n_subunits_per_start - 1) / 2, where z_0 is the
    z-coordinate of the initial displacement; and the mean z-coordinate of
    the positions is z_0. *)
Theorem helical_lattice_rows_and_mean_z
        (rise twist : R) (n_subunits_per_start n_start : Z)
        (initial_displacement : Linalg3.vec3)
        (initial_rotation : Linalg3.mat3) (degrees : bool) :
  (1 <= n_start)%Z -> (1 <= n_subunits_per_start)%Z ->
  let positions :=
    Helix.compute_helical_lattice_positions
      rise twist n_subunits_per_start initial_displacement n_start degrees in
  let rotations :=
    Helix.compute_helical_lattice_rotations
      twist n_subunits_per_start initial_rotation n_start degrees in
  Z.of_nat (List.length positions) = (n_start * n_subunits_per_start)%Z
  /\ Z.of_nat (List.length rotations) = (n_start * n_subunits_per_start)%Z
  /\ map Linalg3.vz positions
     = concat
         (repeat
            (map (fun i =>
                    Linalg3.vz initial_displacement + i * rise
                    - rise * IZR (n_subunits_per_start - 1) / 2)%R
                 (Helix.arange n_subunits_per_start))
            (Z.to_nat n_start))
  /\ Helix.mean_z positions = Linalg3.vz initial_displacement.
Proof.
  intros Hn Hm positions rotations. subst positions rotations.
  rewrite positions_length, rotations_length.
  repeat split.
  - lia.
  - lia.
  - apply positions_z.
  - apply positions_mean_z; assumption.
Qed.

Lemma helical_lattice_rows_and_mean_z_witness :
  let positions :=
    Helix.compute_helical_lattice_positions
      5 30 4 (10, 0, 3)%R 2 true in
  let rotations :=
    Helix.compute_helical_lattice_rotations 30 4 Linalg3.eye 2 true in
  Z.of_nat (List.length positions) = (2 * 4)%Z
  /\ Z.of_nat (List.length rotations) = (2 * 4)%Z
  /\ map Linalg3.vz positions
     = concat
         (repeat
            (map (fun i =>
                    Linalg3.vz (10, 0, 3)%R + i * 5 - 5 * IZR (4 - 1) / 2)%R
                 (Helix.arange 4))
            (Z.to_nat 2))
  /\ Helix.mean_z positions = Linalg3.vz (10, 0, 3)%R.
Proof.
  apply (helical_lattice_rows_and_mean_z
           5 30 4 2 (10, 0, 3)%R Linalg3.eye true); lia.
Defined.

(** C2 as stated fails: a single subunit displaced by (0, 0, 1) gives a
    lattice whose mean z-coordinate is 1, not 0. *)
Lemma helical_mean_z_follows_displacement :
  (1 <= 1)%Z /\ (1 <= 1)%Z
  /\ Helix.mean_z
       (Helix.compute_helical_lattice_positions 2 30 1 (0, 0, 1)%R 1 true)
     <> 0%R.
Proof.
  split; [lia|]. split; [lia|].
  rewrite positions_mean_z by lia. cbn. lra.
Qed.

(** C10: for n_start >= 1, n_subunits_per_start >= 1 and an initial
    rotation that is orthonormal with determinant +1,
    [compute_helical_lattice_rotations] returns exactly
    n_start * n_subunits_per_start matrices, for every twist, and every one
    of them is orthonormal with determinant +1. *)
Theorem helical_lattice_rotations_are_rotations
        (twist : R) (n_subunits_per_start : Z)
        (initial_rotation : Linalg3.mat3) (n_start : Z) (degrees : bool) :
  (1 <= n_start)%Z -> (1 <= n_subunits_per_start)%Z ->
  Linalg3.is_rotation initial_rotation ->
  let rotations :=
    Helix.compute_helical_lattice_rotations
      twist n_subunits_per_start initial_rotation n_start degrees in
  Z.of_nat (List.length rotations) = (n_start * n_subunits_per_start)%Z
  /\ Forall Linalg3.is_rotation rotations
  /\ (forall j : Z,
         (0 <= j < n_start * n_subunits_per_start)%Z ->
         exists R_j,
           nth_error rotations (Z.to_nat j) = Some R_j
           /\ Linalg3.is_rotation R_j).
Proof.
  intros Hn Hm H0 rotations.
  assert (Hlen : Z.of_nat (List.length rotations)
                 = (n_start * n_subunits_per_start)%Z)
    by (subst rotations; rewrite rotations_length; lia).
  assert (Hall : Forall Linalg3.is_rotation rotations).
  { subst rotations. unfold Helix.compute_helical_lattice_rotations.
    apply Forall_flat_map, Forall_forall. intros angle _.
    unfold Helix.compute_helix_subunit_rotations_per_start.
    rewrite map_map. apply Forall_map, Forall_forall. intros i _.
    apply is_rotation_matmul; [apply is_rotation_screw|].
    unfold Helix.compute_ith_subunit_rotation_in_subhelix.
    apply is_rotation_matmul; [apply is_rotation_screw | exact H0]. }
  split; [exact Hlen|]. split; [exact Hall|].
  intros j Hj.
  destruct (nth_error rotations (Z.to_nat j)) as [R_j|] eqn:E.
  - exists R_j. split; [reflexivity|].
    rewrite Forall_forall in Hall. apply Hall.
    apply (nth_error_In _ _ E).
  - apply nth_error_None in E. lia.
Qed.

Lemma helical_lattice_rotations_are_rotations_witness :
  let rotations :=
    Helix.compute_helical_lattice_rotations 30 4 Linalg3.eye 2 true in
  Z.of_nat (List.length rotations) = (2 * 4)%Z
  /\ Forall Linalg3.is_rotation rotations
  /\ (forall j : Z,
         (0 <= j < 2 * 4)%Z ->
         exists R_j,
           nth_error rotations (Z.to_nat j) = Some R_j
           /\ Linalg3.is_rotation R_j).
Proof.
  apply (helical_lattice_rotations_are_rotations 30 4 Linalg3.eye 2 true);
    [lia | lia | apply is_rotation_eye].
Defined.

(** C8: for n_start >= 1, [Helix.__check_init__] raises its error exactly
    when n_subunits % n_start != 0, and returns normally otherwise. *)
Theorem helix_check_init_multiple (self : Helix.Helix) :
  (1 <= Helix.n_start self)%Z ->
  ((exists e, Helix.__check_init__ self = inl e)
   <-> (Helix.n_subunits self mod Helix.n_start self <> 0)%Z)
  /\ ((Helix.n_subunits self mod Helix.n_start self <> 0)%Z ->
      Helix.__check_init__ self
      = inl (AttributeError
               "The number of subunits must be a multiple of the helical start number."))
  /\ ((Helix.n_subunits self mod Helix.n_start self = 0)%Z ->
      Helix.__check_init__ self = inr tt).
Proof.
  intros Hn. unfold Helix.__check_init__.
  destruct (Z.eqb_spec (Helix.n_start self) 0) as [E0|_]; [lia|].
  destruct (Z.eqb_spec (Helix.n_subunits self mod Helix.n_start self) 0)
    as [E|E]; cbn [negb].
  - split; [split|split].
    + intros [e He]. discriminate He.
    + intros Hne. contradiction.
    + intros Hne. contradiction.
    + reflexivity.
  - split; [split|split].
    + intros _. exact E.
    + intros _. eexists. reflexivity.
    + reflexivity.
    + intros Heq. contradiction.
Qed.

Lemma helix_check_init_multiple_witness :
  let self := Helix.mkHelix (10, 0, 0)%R Linalg3.eye 5 30 3 7 true in
  ((exists e, Helix.__check_init__ self = inl e)
   <-> (Helix.n_subunits self mod Helix.n_start self <> 0)%Z)
  /\ ((Helix.n_subunits self mod Helix.n_start self <> 0)%Z ->
      Helix.__check_init__ self
      = inl (AttributeError
               "The number of subunits must be a multiple of the helical start number."))
  /\ ((Helix.n_subunits self mod Helix.n_start self = 0)%Z ->
      Helix.__check_init__ self = inr tt).
Proof.
  apply (helix_check_init_multiple
           (Helix.mkHelix (10, 0, 0)%R Linalg3.eye 5 30 3 7 true)).
  cbn. lia.
Defined.

(** C4: for every subunit i with lattice position p_i and lattice rotation
    R_i, the derived poses hold at i the offset rotate(p_i) + offset of the
    assembly pose, and the rotation R_i @ (the assembly's rotation
    matrix). *)
Theorem poses_transform_each_subunit
        (pose : Assembly.Pose) (positions : list Linalg3.vec3)
        (rotations : list Linalg3.mat3) (i : nat)
        (p_i : Linalg3.vec3) (R_i : Linalg3.mat3) :
  nth_error positions i = Some p_i ->
  nth_error rotations i = Some R_i ->
  let lab := Assembly.poses pose positions rotations in
  let moved :=
    Linalg3.vadd (Assembly.rotate_point pose p_i) (Assembly.offset pose) in
  nth_error (Assembly.offset_x lab) i = Some (Linalg3.vx moved)
  /\ nth_error (Assembly.offset_y lab) i = Some (Linalg3.vy moved)
  /\ nth_error (Assembly.offset_z lab) i = Some (Linalg3.vz moved)
  /\ nth_error (Assembly.matrix lab) i
     = Some (Linalg3.matmul R_i (Assembly.rotation_as_matrix pose)).
Proof.
  intros Hp HR lab moved. subst lab moved.
  unfold Assembly.poses, Assembly.rotate.
  cbn [Assembly.offset_x Assembly.offset_y Assembly.offset_z Assembly.matrix].
  rewrite !nth_error_map, Hp, HR. cbn [option_map]. repeat split.
Qed.

Lemma poses_transform_each_subunit_witness :
  let pose :=
    Assembly.mkPose (Linalg3.matvec (Helix.screw_rotation 0 1))
                    (1, 2, 3)%R (Helix.screw_rotation 0 1) in
  let lab :=
    Assembly.poses pose [(1, 0, 0); (0, 1, 0)]%R
                   [Linalg3.eye; Helix.screw_rotation 0 1] in
  let moved :=
    Linalg3.vadd (Assembly.rotate_point pose (0, 1, 0)%R)
                 (Assembly.offset pose) in
  nth_error (Assembly.offset_x lab) 1 = Some (Linalg3.vx moved)
  /\ nth_error (Assembly.offset_y lab) 1 = Some (Linalg3.vy moved)
  /\ nth_error (Assembly.offset_z lab) 1 = Some (Linalg3.vz moved)
  /\ nth_error (Assembly.matrix lab) 1
     = Some (Linalg3.matmul (Helix.screw_rotation 0 1)
                            (Assembly.rotation_as_matrix pose)).
Proof.
  apply (poses_transform_each_subunit
           (Assembly.mkPose (Linalg3.matvec (Helix.screw_rotation 0 1))
                            (1, 2, 3)%R (Helix.screw_rotation 0 1))
           [(1, 0, 0); (0, 1, 0)]%R
           [Linalg3.eye; Helix.screw_rotation 0 1]
           1%nat (0, 1, 0)%R (Helix.screw_rotation 0 1));
    reflexivity.
Defined.

(* ================================================================== *)
(** * Part III: further properties of the modelled code *)
(* ================================================================== *)

From Stdlib Require Import Permutation Psatz.

(** ** Direct binning: rounding, shape, superposition, order, depth *)

Section ImagingFurther.

Import Imaging.
Local Open Scope Z_scope.

Lemma rint_nearest (q : Q) :
  (- (1 # 2) <= q - inject_Z (rint q) <= 1 # 2)%Q.
Proof.
  unfold rint.
  pose proof (Qfloor_le q) as Hlo. pose proof (Qlt_floor q) as Hhi.
  rewrite inject_Z_plus in Hhi. change (inject_Z 1) with 1%Q in Hhi.
  destruct (Qcompare_spec (q - inject_Z (Qfloor q)) (1 # 2)) as [E|E|E].
  - destruct (Z.even (Qfloor q)).
    + lra.
    + rewrite inject_Z_plus. change (inject_Z 1) with 1%Q. lra.
  - lra.
  - rewrite inject_Z_plus. change (inject_Z 1) with 1%Q. lra.
Qed.

Lemma rint_tie_even (q : Q) :
  (q - inject_Z (Qfloor q) == 1 # 2)%Q -> Z.even (rint q) = true.
Proof.
  intros E. unfold rint. rewrite (proj1 (Qeq_alt _ _) E).
  destruct (Z.even (Qfloor q)) eqn:Ev; [exact Ev|].
  rewrite Z.add_1_r, Z.even_succ, <- Z.negb_even, Ev. reflexivity.
Qed.

Lemma binned_weight_app (shape : Z * Z) (a b : Z) (v1 : list Q) :
  forall (c1 : list coord) (v2 : list Q) (c2 : list coord),
    List.length v1 = List.length c1 ->
    (binned_weight shape a b (v1 ++ v2) (c1 ++ c2)
     == binned_weight shape a b v1 c1 + binned_weight shape a b v2 c2)%Q.
Proof.
  induction v1 as [|w v1 IH]; intros [|c c1] v2 c2 Hlen;
    try discriminate Hlen.
  - cbn [app binned_weight]. ring.
  - cbn [app binned_weight].
    destruct (shifted_index shape c) as [y z].
    assert (Hlen' : List.length v1 = List.length c1)
      by (simpl in Hlen; lia).
    destruct (_ && _); rewrite (IH c1 v2 c2 Hlen'); ring.
Qed.

Lemma binned_weight_scale (shape : Z * Z) (a b : Z) (k : Q) (v : list Q) :
  forall c : list coord,
    (binned_weight shape a b (map (Qmult k) v) c
     == k * binned_weight shape a b v c)%Q.
Proof.
  induction v as [|w v IH]; intros [|c cs]; cbn [map binned_weight];
    try ring.
  destruct (shifted_index shape c) as [y z].
  destruct (_ && _); rewrite IH; ring.
Qed.

Lemma binned_weight_perm (shape : Z * Z) (a b : Z)
      (l l' : list (Q * coord)) :
  Permutation l l' ->
  (binned_weight shape a b (map fst l) (map snd l)
   == binned_weight shape a b (map fst l') (map snd l'))%Q.
Proof.
  induction 1 as [|[w c] l l' _ IH|[w c] [w' c'] l|l l' l'' _ IH1 _ IH2].
  - reflexivity.
  - cbn [map fst snd binned_weight].
    destruct (shifted_index shape c) as [y z].
    destruct (_ && _); rewrite IH; reflexivity.
  - cbn [map fst snd binned_weight].
    destruct (shifted_index shape c) as [y z].
    destruct (shifted_index shape c') as [y' z'].
    destruct (_ && _); destruct (_ && _); ring.
  - rewrite IH1. exact IH2.
Qed.

(** Every pixel of the image, inside and outside the requested shape. *)
Lemma project_pixels (volume : list Q) (coords : list coord) (N2 N3 : Z) :
  0 < N2 -> 0 < N3 ->
  List.length volume = List.length coords ->
  exists img,
    project volume coords (N2, N3) = inr img
    /\ forall a b,
      (pixel img a b
       == if (0 <=? a) && (a <? N2) && (0 <=? b) && (b <? N3)
          then binned_weight (N2, N3) a b volume coords else 0)%Q.
Proof.
  intros H2 H3 Hlen.
  destruct (project_binned volume coords N2 N3 H2 H3 Hlen)
    as [img [Hp [Hr [Hc [Hpix _]]]]].
  exists img. split; [exact Hp|]. intros a b.
  destruct (Z.leb_spec 0 a); destruct (Z.ltb_spec a N2);
    destruct (Z.leb_spec 0 b); destruct (Z.ltb_spec b N3); cbn [andb];
    try (apply Hpix; lia);
    rewrite (pixel_outside img N2 N3 a b Hr Hc) by lia; reflexivity.
Qed.

End ImagingFurther.

(** ** Direct binning on the machine integers *)

Section ImagingInt32Facts.

Import Imaging.
Local Open Scope Z_scope.

Lemma wrap_id (x : Z) :
  ImagingInt32.int32_min <= x <= ImagingInt32.int32_max ->
  ImagingInt32.wrap x = x.
Proof.
  unfold ImagingInt32.wrap, ImagingInt32.int32_min, ImagingInt32.int32_max,
    ImagingInt32.int32_modulus.
  intros Hx. rewrite Z.mod_small by lia. lia.
Qed.

Lemma wrap_range (x : Z) :
  ImagingInt32.int32_min <= ImagingInt32.wrap x <= ImagingInt32.int32_max.
Proof.
  unfold ImagingInt32.wrap, ImagingInt32.int32_min, ImagingInt32.int32_max,
    ImagingInt32.int32_modulus.
  pose proof (Z.mod_pos_bound (x - -2147483648) 4294967296). lia.
Qed.

Lemma astype_int_id (x : Z) :
  ImagingInt32.int32_min <= x <= ImagingInt32.int32_max ->
  ImagingInt32.astype_int x = x.
Proof. unfold ImagingInt32.astype_int. lia. Qed.

(** Inside the type the index is the rounded coordinate plus the shift. *)
Lemma shifted_index_exact (N2 N3 : Z) (c : coord) :
  0 <= N2 -> 0 <= N3 ->
  ImagingInt32.fits (N2 / 2) (axis1 c) ->
  ImagingInt32.fits (N3 / 2) (axis2 c) ->
  ImagingInt32.shifted_index (N2, N3) c
  = (rint (axis1 c) + N2 / 2, rint (axis2 c) + N3 / 2).
Proof.
  intros H2 H3 [Hy1 Hy2] [Hz1 Hz2].
  assert (0 <= N2 / 2) by (apply Z.div_pos; lia).
  assert (0 <= N3 / 2) by (apply Z.div_pos; lia).
  unfold ImagingInt32.shifted_index, ImagingInt32.rounded.
  rewrite !astype_int_id by lia. rewrite !wrap_id by lia. reflexivity.
Qed.

(** When the image fits the type, the flat index never wraps. *)
Lemma ravel_int32 (N2 N3 y z : Z) :
  0 < N2 -> 0 < N3 -> N2 * N3 <= ImagingInt32.int32_max ->
  ImagingInt32.ravel_multi_index_clip (y, z) (N2, N3)
  = nearest_valid N2 y * N3 + nearest_valid N3 z.
Proof.
  intros H2 H3 Hfit. unfold ImagingInt32.ravel_multi_index_clip.
  rewrite !clip_nearest_valid by assumption.
  pose proof (nearest_valid_range N2 y H2).
  pose proof (nearest_valid_range N3 z H3).
  assert (ImagingInt32.int32_min <= 0) by (unfold ImagingInt32.int32_min; lia).
  rewrite (wrap_id (nearest_valid N2 y * N3)) by nia.
  apply wrap_id. nia.
Qed.

Lemma nth_scatter_add_binned_int32 (N2 N3 a b : Z) :
  0 < N2 -> 0 < N3 -> N2 * N3 <= ImagingInt32.int32_max ->
  0 <= a < N2 -> 0 <= b < N3 ->
  forall (volume : list Q) (coords : list coord) (arr : list Q),
    List.length arr = Z.to_nat (N2 * N3) ->
    (nth (Z.to_nat (a * N3 + b))
         (scatter_add arr
            (map (fun c =>
                    ImagingInt32.ravel_multi_index_clip
                      (ImagingInt32.shifted_index (N2, N3) c) (N2, N3))
                 coords)
            volume) 0
     == nth (Z.to_nat (a * N3 + b)) arr 0
        + ImagingInt32.binned_weight (N2, N3) a b volume coords)%Q.
Proof.
  intros H2 H3 Hfit Ha Hb.
  induction volume as [|w ws IH]; intros [|c cs] arr Hlen;
    cbn [scatter_add map ImagingInt32.binned_weight]; try ring.
  rewrite IH by (rewrite add_at_length; exact Hlen).
  rewrite nth_add_at by (rewrite Hlen; nia).
  destruct (ImagingInt32.shifted_index (N2, N3) c) as [y z].
  rewrite (ravel_int32 N2 N3 y z H2 H3 Hfit).
  pose proof (nearest_valid_range N2 y H2) as Hy.
  pose proof (nearest_valid_range N3 z H3) as Hz.
  pose proof (flat_index_eq N3 (nearest_valid N2 y) (nearest_valid N3 z)
                a b Hz Hb) as Hiff.
  cbn [fst snd].
  match goal with
  | |- context [Nat.eqb ?i ?j] => destruct (Nat.eqb_spec i j) as [E|E]
  end.
  - assert (Hyz : nearest_valid N2 y = a /\ nearest_valid N3 z = b)
      by (apply Hiff; nia).
    destruct Hyz as [-> ->]. rewrite !Z.eqb_refl. cbn [andb]. ring.
  - destruct (Z.eqb_spec (nearest_valid N2 y) a) as [Ey|Ey];
      destruct (Z.eqb_spec (nearest_valid N3 z) b) as [Ez|Ez];
      cbn [andb]; try ring.
    exfalso. apply E. subst. f_equal. lia.
Qed.

(** The image of the machine-integer [project]: its shape, every pixel,
    and its total. *)
Lemma project_int32_binned (volume : list Q) (coords : list coord)
      (N2 N3 : Z) :
  0 < N2 -> 0 < N3 -> N2 * N3 <= ImagingInt32.int32_max ->
  List.length volume = List.length coords ->
  exists img,
    ImagingInt32.project volume coords (N2, N3) = inr img
    /\ List.length img = Z.to_nat N2
    /\ Forall (fun row => List.length row = Z.to_nat N3) img
    /\ (forall a b, 0 <= a < N2 -> 0 <= b < N3 ->
                    (pixel img a b
                     == ImagingInt32.binned_weight (N2, N3) a b volume coords)%Q)
    /\ (sum2 img == Qsum volume)%Q.
Proof.
  intros H2 H3 Hfit Hlen. unfold ImagingInt32.project, bincount.
  rewrite length_map, <- Hlen, Nat.eqb_refl.
  eexists. split; [reflexivity|].
  set (xs := map _ coords).
  set (flat := scatter_add _ xs volume).
  assert (Hflat : List.length flat = (Z.to_nat N2 * Z.to_nat N3)%nat).
  { unfold flat. rewrite scatter_add_length, repeat_length. nia. }
  split; [apply reshape2_length|].
  split; [apply reshape2_rows; exact Hflat|].
  split.
  - intros a b Ha Hb. unfold pixel.
    destruct (Z.ltb_spec a 0); [lia|]. destruct (Z.ltb_spec b 0); [lia|].
    simpl. rewrite nth_reshape2 by lia.
    replace (Z.to_nat a * Z.to_nat N3 + Z.to_nat b)%nat
      with (Z.to_nat (a * N3 + b)) by nia.
    unfold flat, xs.
    rewrite (nth_scatter_add_binned_int32 N2 N3 a b H2 H3 Hfit Ha Hb)
      by apply repeat_length.
    rewrite nth_repeat. ring.
  - unfold sum2. rewrite concat_reshape2 by exact Hflat.
    unfold flat. rewrite Qsum_scatter_add.
    + rewrite Qsum_repeat_zero. ring.
    + unfold xs. rewrite length_map. symmetry. exact Hlen.
    + unfold xs. apply Forall_forall. intros x Hx.
      apply in_map_iff in Hx. destruct Hx as [c [<- _]].
      rewrite repeat_length.
      destruct (ImagingInt32.shifted_index (N2, N3) c) as [y z].
      rewrite (ravel_int32 N2 N3 y z H2 H3 Hfit).
      pose proof (nearest_valid_range N2 y H2).
      pose proof (nearest_valid_range N3 z H3). nia.
Qed.

(** Where every sample fits the type, the machine-integer [project] is the
    [project] over exact integers. *)
Lemma project_int32_agrees (volume : list Q) (coords : list coord)
      (N2 N3 : Z) :
  0 < N2 -> 0 < N3 -> N2 * N3 <= ImagingInt32.int32_max ->
  Forall (fun c => ImagingInt32.fits (N2 / 2) (axis1 c)
                   /\ ImagingInt32.fits (N3 / 2) (axis2 c)) coords ->
  ImagingInt32.project volume coords (N2, N3)
  = Imaging.project volume coords (N2, N3).
Proof.
  intros H2 H3 Hfit Hall. unfold ImagingInt32.project, Imaging.project.
  assert (Hflat :
            map (fun c => ImagingInt32.ravel_multi_index_clip
                            (ImagingInt32.shifted_index (N2, N3) c) (N2, N3))
                coords
            = map (fun c => Imaging.ravel_multi_index_clip
                              (Imaging.shifted_index (N2, N3) c) (N2, N3))
                  coords).
  { apply map_ext_in. intros c Hin.
    rewrite Forall_forall in Hall. destruct (Hall c Hin) as [Hy Hz].
    rewrite (shifted_index_exact N2 N3 c) by (assumption || lia).
    rewrite (ravel_int32 N2 N3 _ _ H2 H3 Hfit).
    unfold Imaging.shifted_index, Imaging.ravel_multi_index_clip.
    rewrite !clip_nearest_valid by assumption. reflexivity. }
  rewrite Hflat. reflexivity.
Qed.

End ImagingInt32Facts.

(** The sample of a coordinate beyond int32: 3e9 saturates to 2^31 - 1,
    the shift by N2//2 = 2 wraps it below zero, and the clip bins it to
    row 0. *)
Example project_int32_far_sample :
  ImagingInt32.project [1] [(0, 3000000000 # 1, 0)] (4, 3)%Z
  = inr [[0; 1; 0]; [0; 0; 0]; [0; 0; 0]; [0; 0; 0]].
Proof. reflexivity. Qed.



(** X1: a sample whose rounded, shifted position is a pixel of the image
    is binned by [project] to exactly that pixel, which lies within half a
    pixel of the sample on each in-plane axis; a coordinate exactly half
    way between two integers is rounded to the even one. *)
Theorem project_bins_to_nearest_pixel
        (w : Q) (c : Imaging.coord) (N2 N3 : Z) :
  (0 < N2)%Z -> (0 < N3)%Z -> (N2 * N3 <= ImagingInt32.int32_max)%Z ->
  (0 <= Imaging.rint (Imaging.axis1 c) + N2 / 2 < N2)%Z ->
  (0 <= Imaging.rint (Imaging.axis2 c) + N3 / 2 < N3)%Z ->
  exists img,
    ImagingInt32.project [w] [c] (N2, N3) = inr img
    /\ (forall a b : Z,
           Imaging.pixel img a b
           == if ((a =? Imaging.rint (Imaging.axis1 c) + N2 / 2)
                  && (b =? Imaging.rint (Imaging.axis2 c) + N3 / 2))%Z
              then w else 0)
    /\ (- (1 # 2)
        <= Imaging.axis1 c - inject_Z (Imaging.rint (Imaging.axis1 c))
        <= 1 # 2)
    /\ (- (1 # 2)
        <= Imaging.axis2 c - inject_Z (Imaging.rint (Imaging.axis2 c))
        <= 1 # 2)
    /\ (Imaging.axis1 c - inject_Z (Qfloor (Imaging.axis1 c)) == 1 # 2 ->
        Z.even (Imaging.rint (Imaging.axis1 c)) = true)
    /\ (Imaging.axis2 c - inject_Z (Qfloor (Imaging.axis2 c)) == 1 # 2 ->
        Z.even (Imaging.rint (Imaging.axis2 c)) = true).
Proof.
  intros H2 H3 Hfit Hy Hz.
  destruct (project_int32_binned [w] [c] N2 N3 H2 H3 Hfit eq_refl)
    as [img [Hp [Hr [Hc [Hpix _]]]]].
  exists img. split; [exact Hp|].
  split; [|repeat split; try apply rint_nearest; apply rint_tie_even].
  assert (Hh2 : (0 <= N2 / 2 <= N2)%Z)
    by (split; [apply Z.div_pos | apply Z.div_le_upper_bound]; lia).
  assert (Hh3 : (0 <= N3 / 2 <= N3)%Z)
    by (split; [apply Z.div_pos | apply Z.div_le_upper_bound]; lia).
  assert (Hmin : (ImagingInt32.int32_min < - ImagingInt32.int32_max)%Z)
    by (unfold ImagingInt32.int32_min, ImagingInt32.int32_max; lia).
  assert (Hidx : ImagingInt32.shifted_index (N2, N3) c
                 = (Imaging.rint (Imaging.axis1 c) + N2 / 2,
                    Imaging.rint (Imaging.axis2 c) + N3 / 2)%Z).
  { apply shifted_index_exact; try lia; unfold ImagingInt32.fits; nia. }
  intros a b.
  destruct (Z_le_dec 0 a) as [Ha0|Ha0];
    [destruct (Z_lt_dec a N2) as [Ha1|Ha1];
     [destruct (Z_le_dec 0 b) as [Hb0|Hb0];
      [destruct (Z_lt_dec b N3) as [Hb1|Hb1]|]|]|].
  2-5: rewrite (pixel_outside img N2 N3 a b Hr Hc) by lia;
    destruct (Z.eqb_spec a (Imaging.rint (Imaging.axis1 c) + N2 / 2));
    destruct (Z.eqb_spec b (Imaging.rint (Imaging.axis2 c) + N3 / 2));
    cbn [andb]; try reflexivity; lia.
  rewrite Hpix by lia. cbn [ImagingInt32.binned_weight].
  rewrite Hidx. cbn [fst snd].
  rewrite !nearest_valid_id by assumption.
  rewrite (Z.eqb_sym _ a), (Z.eqb_sym _ b).
  destruct (_ && _); [ring | reflexivity].
Qed.

Lemma project_bins_to_nearest_pixel_witness :
  exists img,
    ImagingInt32.project [5 # 2] [(7 # 1, 3 # 2, -2 # 3)] (6, 5)%Z = inr img
    /\ (forall a b : Z,
           Imaging.pixel img a b
           == if ((a =? Imaging.rint (Imaging.axis1 (7 # 1, 3 # 2, -2 # 3))
                        + 6 / 2)
                  && (b =? Imaging.rint (Imaging.axis2 (7 # 1, 3 # 2, -2 # 3))
                           + 5 / 2))%Z
              then 5 # 2 else 0)
    /\ (- (1 # 2)
        <= Imaging.axis1 (7 # 1, 3 # 2, -2 # 3)
           - inject_Z (Imaging.rint (Imaging.axis1 (7 # 1, 3 # 2, -2 # 3)))
        <= 1 # 2)
    /\ (- (1 # 2)
        <= Imaging.axis2 (7 # 1, 3 # 2, -2 # 3)
           - inject_Z (Imaging.rint (Imaging.axis2 (7 # 1, 3 # 2, -2 # 3)))
        <= 1 # 2)
    /\ (Imaging.axis1 (7 # 1, 3 # 2, -2 # 3)
        - inject_Z (Qfloor (Imaging.axis1 (7 # 1, 3 # 2, -2 # 3))) == 1 # 2 ->
        Z.even (Imaging.rint (Imaging.axis1 (7 # 1, 3 # 2, -2 # 3))) = true)
    /\ (Imaging.axis2 (7 # 1, 3 # 2, -2 # 3)
        - inject_Z (Qfloor (Imaging.axis2 (7 # 1, 3 # 2, -2 # 3))) == 1 # 2 ->
        Z.even (Imaging.rint (Imaging.axis2 (7 # 1, 3 # 2, -2 # 3))) = true).
Proof.
  apply (project_bins_to_nearest_pixel
           (5 # 2) (7 # 1, 3 # 2, -2 # 3) 6 5);
    [lia | lia | unfold ImagingInt32.int32_max; lia
     | split; [vm_compute; discriminate | vm_compute; reflexivity]
     | split; [vm_compute; discriminate | vm_compute; reflexivity]].
Defined.

(** X2: for weights and coordinates of one length and non-negative
    dimensions, [project] returns an image of exactly the requested shape
    (N2, N3). *)
Theorem project_output_shape
        (volume : list Q) (coords : list Imaging.coord) (N2 N3 : Z) :
  (0 <= N2)%Z -> (0 <= N3)%Z ->
  List.length volume = List.length coords ->
  exists img,
    Imaging.project volume coords (N2, N3) = inr img
    /\ List.length img = Z.to_nat N2
    /\ Forall (fun row => List.length row = Z.to_nat N3) img.
Proof.
  intros H2 H3 Hlen. eexists.
  split; [apply project_succeeds; exact Hlen|].
  split; [apply reshape2_length|].
  apply reshape2_rows.
  rewrite scatter_add_length, repeat_length. apply Z2Nat.inj_mul; assumption.
Qed.

Lemma project_output_shape_witness :
  exists img,
    Imaging.project [1 # 2; 3 # 1] [(0, 9 # 1, 0); (0, 0, 1 # 3)] (2, 5)%Z
    = inr img
    /\ List.length img = Z.to_nat 2
    /\ Forall (fun row => List.length row = Z.to_nat 5) img.
Proof.
  apply (project_output_shape
           [1 # 2; 3 # 1] [(0, 9 # 1, 0); (0, 0, 1 # 3)] 2 5);
    [lia | lia | reflexivity].
Defined.

(** X3: the projection is along axis 0: two coordinate arrays that agree
    on axes 1 and 2 give the same image, whatever their depth
    coordinates. *)
Theorem project_ignores_depth
        (volume : list Q) (coords coords' : list Imaging.coord)
        (shape : Z * Z) :
  map (fun c => (Imaging.axis1 c, Imaging.axis2 c)) coords
  = map (fun c => (Imaging.axis1 c, Imaging.axis2 c)) coords' ->
  Imaging.project volume coords shape = Imaging.project volume coords' shape.
Proof.
  intros Hyz. destruct shape as [N2 N3]. unfold Imaging.project.
  set (g := fun p : Q * Q =>
              Imaging.ravel_multi_index_clip
                ((Imaging.rint (fst p) + N2 / 2)%Z,
                 (Imaging.rint (snd p) + N3 / 2)%Z) (N2, N3)).
  assert (Hflat : forall cs,
             map (fun c => Imaging.ravel_multi_index_clip
                             (Imaging.shifted_index (N2, N3) c) (N2, N3)) cs
             = map g (map (fun c => (Imaging.axis1 c, Imaging.axis2 c)) cs)).
  { intros cs. rewrite map_map. apply map_ext. intros c. reflexivity. }
  rewrite (Hflat coords), (Hflat coords'), Hyz. reflexivity.
Qed.

Lemma project_ignores_depth_witness :
  Imaging.project [1 # 2; 3 # 1] [(0, 1 # 1, 0); (5 # 1, 0, 1 # 3)] (4, 3)%Z
  = Imaging.project [1 # 2; 3 # 1]
                    [(-7 # 2, 1 # 1, 0); (100 # 1, 0, 1 # 3)] (4, 3)%Z.
Proof.
  apply (project_ignores_depth
           [1 # 2; 3 # 1] [(0, 1 # 1, 0); (5 # 1, 0, 1 # 3)]
           [(-7 # 2, 1 # 1, 0); (100 # 1, 0, 1 # 3)] (4, 3)%Z).
  reflexivity.
Defined.

(** X4: binning is additive over sets of samples: the image of two sets of
    samples taken together is, pixel by pixel, the sum of their images. *)
Theorem project_superposition
        (v1 v2 : list Q) (c1 c2 : list Imaging.coord) (N2 N3 : Z) :
  (0 < N2)%Z -> (0 < N3)%Z ->
  List.length v1 = List.length c1 ->
  List.length v2 = List.length c2 ->
  exists img img1 img2,
    Imaging.project (v1 ++ v2) (c1 ++ c2) (N2, N3) = inr img
    /\ Imaging.project v1 c1 (N2, N3) = inr img1
    /\ Imaging.project v2 c2 (N2, N3) = inr img2
    /\ forall a b : Z,
        Imaging.pixel img a b
        == Imaging.pixel img1 a b + Imaging.pixel img2 a b.
Proof.
  intros H2 H3 Hl1 Hl2.
  assert (Hl : List.length (v1 ++ v2) = List.length (c1 ++ c2))
    by (rewrite !length_app; lia).
  destruct (project_pixels _ _ N2 N3 H2 H3 Hl) as [img [Hp Hpix]].
  destruct (project_pixels _ _ N2 N3 H2 H3 Hl1) as [img1 [Hp1 Hpix1]].
  destruct (project_pixels _ _ N2 N3 H2 H3 Hl2) as [img2 [Hp2 Hpix2]].
  exists img, img1, img2. repeat split; try assumption.
  intros a b. rewrite Hpix, Hpix1, Hpix2.
  destruct (_ && _); [apply binned_weight_app; exact Hl1 | ring].
Qed.

Lemma project_superposition_witness :
  exists img img1 img2,
    Imaging.project ([1 # 2] ++ [3 # 1; 2 # 1])
                    ([(0, 0, 0)] ++ [(0, 5 # 1, -7 # 1); (0, 0, 1 # 3)])
                    (4, 3)%Z = inr img
    /\ Imaging.project [1 # 2] [(0, 0, 0)] (4, 3)%Z = inr img1
    /\ Imaging.project [3 # 1; 2 # 1]
                       [(0, 5 # 1, -7 # 1); (0, 0, 1 # 3)] (4, 3)%Z = inr img2
    /\ forall a b : Z,
        Imaging.pixel img a b
        == Imaging.pixel img1 a b + Imaging.pixel img2 a b.
Proof.
  apply (project_superposition
           [1 # 2] [3 # 1; 2 # 1]
           [(0, 0, 0)] [(0, 5 # 1, -7 # 1); (0, 0, 1 # 3)] 4 3);
    [lia | lia | reflexivity | reflexivity].
Defined.

(** X5: binning is homogeneous in the weights: multiplying every weight by
    k multiplies every pixel by k. *)
Theorem project_scales_with_weights
        (k : Q) (volume : list Q) (coords : list Imaging.coord) (N2 N3 : Z) :
  (0 < N2)%Z -> (0 < N3)%Z ->
  List.length volume = List.length coords ->
  exists img img',
    Imaging.project volume coords (N2, N3) = inr img
    /\ Imaging.project (map (Qmult k) volume) coords (N2, N3) = inr img'
    /\ forall a b : Z, Imaging.pixel img' a b == k * Imaging.pixel img a b.
Proof.
  intros H2 H3 Hlen.
  assert (Hlen' : List.length (map (Qmult k) volume) = List.length coords)
    by (rewrite length_map; exact Hlen).
  destruct (project_pixels _ _ N2 N3 H2 H3 Hlen) as [img [Hp Hpix]].
  destruct (project_pixels _ _ N2 N3 H2 H3 Hlen') as [img' [Hp' Hpix']].
  exists img, img'. repeat split; try assumption.
  intros a b. rewrite Hpix, Hpix'.
  destruct (_ && _); [apply binned_weight_scale | ring].
Qed.

Lemma project_scales_with_weights_witness :
  exists img img',
    Imaging.project [1 # 2; 3 # 1] [(0, 0, 0); (0, 5 # 1, -7 # 1)] (4, 3)%Z
    = inr img
    /\ Imaging.project (map (Qmult (-2 # 3)) [1 # 2; 3 # 1])
                       [(0, 0, 0); (0, 5 # 1, -7 # 1)] (4, 3)%Z = inr img'
    /\ forall a b : Z,
        Imaging.pixel img' a b == (-2 # 3) * Imaging.pixel img a b.
Proof.
  apply (project_scales_with_weights
           (-2 # 3) [1 # 2; 3 # 1] [(0, 0, 0); (0, 5 # 1, -7 # 1)] 4 3);
    [lia | lia | reflexivity].
Defined.

(** X6: the image does not depend on the order of the samples: pairing
    every weight with its coordinates, two arrangements of the same pairs
    give the same pixels. *)
Theorem project_order_independent
        (samples samples' : list (Q * Imaging.coord)) (N2 N3 : Z) :
  (0 < N2)%Z -> (0 < N3)%Z ->
  Permutation samples samples' ->
  exists img img',
    Imaging.project (map fst samples) (map snd samples) (N2, N3) = inr img
    /\ Imaging.project (map fst samples') (map snd samples') (N2, N3)
       = inr img'
    /\ forall a b : Z, Imaging.pixel img a b == Imaging.pixel img' a b.
Proof.
  intros H2 H3 Hperm.
  assert (Hl : forall l : list (Q * Imaging.coord),
             List.length (map fst l) = List.length (map snd l))
    by (intros l; rewrite !length_map; reflexivity).
  destruct (project_pixels _ _ N2 N3 H2 H3 (Hl samples)) as [img [Hp Hpix]].
  destruct (project_pixels _ _ N2 N3 H2 H3 (Hl samples'))
    as [img' [Hp' Hpix']].
  exists img, img'. repeat split; try assumption.
  intros a b. rewrite Hpix, Hpix'.
  destruct (_ && _); [apply binned_weight_perm; exact Hperm | reflexivity].
Qed.

Lemma project_order_independent_witness :
  exists img img',
    Imaging.project
      (map fst [(1 # 2, (0, 0, 0)); (3 # 1, (0, 0, 1 # 3)); (2 # 1, (0, 9 # 1, 0))])
      (map snd [(1 # 2, (0, 0, 0)); (3 # 1, (0, 0, 1 # 3)); (2 # 1, (0, 9 # 1, 0))])
      (4, 3)%Z = inr img
    /\ Imaging.project
         (map fst [(3 # 1, (0, 0, 1 # 3)); (1 # 2, (0, 0, 0)); (2 # 1, (0, 9 # 1, 0))])
         (map snd [(3 # 1, (0, 0, 1 # 3)); (1 # 2, (0, 0, 0)); (2 # 1, (0, 9 # 1, 0))])
         (4, 3)%Z = inr img'
    /\ forall a b : Z, Imaging.pixel img a b == Imaging.pixel img' a b.
Proof.
  apply (project_order_independent
           [(1 # 2, (0, 0, 0)); (3 # 1, (0, 0, 1 # 3)); (2 # 1, (0, 9 # 1, 0))]
           [(3 # 1, (0, 0, 1 # 3)); (1 # 2, (0, 0, 0)); (2 # 1, (0, 9 # 1, 0))]
           4 3);
    [lia | lia | apply perm_swap].
Defined.

(** X7: with no samples at all the image is zero everywhere. *)
Theorem project_of_nothing_is_zero (N2 N3 : Z) :
  (0 < N2)%Z -> (0 < N3)%Z ->
  exists img,
    Imaging.project [] [] (N2, N3) = inr img
    /\ List.length img = Z.to_nat N2
    /\ Forall (fun row => List.length row = Z.to_nat N3) img
    /\ forall a b : Z, Imaging.pixel img a b == 0.
Proof.
  intros H2 H3.
  destruct (project_binned [] [] N2 N3 H2 H3 eq_refl)
    as [img [Hp [Hr [Hc _]]]].
  destruct (project_pixels [] [] N2 N3 H2 H3 eq_refl) as [img' [Hp' Hpix]].
  assert (img' = img) by congruence. subst img'.
  exists img. repeat split; try assumption.
  intros a b. rewrite Hpix. destruct (_ && _); reflexivity.
Qed.

Lemma project_of_nothing_is_zero_witness :
  exists img,
    Imaging.project [] [] (4, 3)%Z = inr img
    /\ List.length img = Z.to_nat 4
    /\ Forall (fun row => List.length row = Z.to_nat 3) img
    /\ forall a b : Z, Imaging.pixel img a b == 0.
Proof.
  apply (project_of_nothing_is_zero 4 3); lia.
Defined.

(** ** NUFFT projection: every entry, the periodic box, the depth *)

Section NufftFurther.

Import Nufft.

Lemma nth_ifftshift1 {A : Type} (d : A) (l : list A) (i : nat) :
  (i < List.length l)%nat ->
  nth i (ifftshift1 l) d
  = nth ((i + List.length l / 2) mod List.length l) l d.
Proof.
  intros Hi. unfold ifftshift1.
  assert (Hk : (List.length l / 2 < List.length l)%nat)
    by (apply half_lt; lia).
  revert Hk. generalize (List.length l / 2)%nat. intros k Hk.
  destruct (Nat.lt_ge_cases i (List.length l - k)) as [Hlt|Hge].
  - rewrite app_nth1 by (rewrite length_skipn; exact Hlt).
    rewrite nth_skipn, Nat.mod_small by lia. f_equal. lia.
  - rewrite app_nth2 by (rewrite length_skipn; exact Hge).
    rewrite length_skipn, nth_firstn.
    destruct (Nat.ltb_spec (i - (List.length l - k)) k) as [_|Hbad]; [|lia].
    f_equal.
    apply (Nat.mod_unique (i + k) (List.length l) 1); lia.
Qed.

(** Entry (i, j) of [ifftshift] of an array of shape (M1, M2). *)
Lemma nth_ifftshift {A : Type} (d : A) (shape : Z * Z)
      (img : list (list A)) (i j : nat) :
  has_shape shape img ->
  (i < Z.to_nat (fst shape))%nat -> (j < Z.to_nat (snd shape))%nat ->
  nth j (nth i (ifftshift img) []) d
  = nth ((j + Z.to_nat (snd shape) / 2) mod Z.to_nat (snd shape))
        (nth ((i + Z.to_nat (fst shape) / 2) mod Z.to_nat (fst shape)) img [])
        d.
Proof.
  intros Hs Hi Hj. pose proof Hs as [Hr Hc]. unfold ifftshift.
  rewrite nth_ifftshift1 by (rewrite length_map; lia).
  rewrite length_map, Hr.
  set (i' := ((i + Z.to_nat (fst shape) / 2) mod Z.to_nat (fst shape))%nat).
  assert (Hi' : (i' < Z.to_nat (fst shape))%nat)
    by (apply Nat.mod_upper_bound; lia).
  rewrite (nth_map_inside _ _ _ _ []) by lia.
  assert (Hlen : List.length (nth i' img []) = Z.to_nat (snd shape))
    by (apply (shape_row shape); assumption).
  rewrite nth_ifftshift1 by lia. rewrite Hlen. reflexivity.
Qed.

Lemma nth_set_at_last {A : Type} (v d : A) (row : list A) (j : nat) :
  (j < List.length row)%nat ->
  nth j (set_at (-1) v row) d
  = if Nat.eqb j (List.length row - 1) then v else nth j row d.
Proof.
  intros Hj. unfold set_at. rewrite norm_index_last by lia.
  destruct (Nat.eqb_spec j (List.length row - 1)) as [->|Hne].
  - rewrite nth_update_at_same by lia. reflexivity.
  - apply nth_update_at_other. lia.
Qed.

Lemma nth_set_row {A : Type} (v d : A) (img : list (list A)) (k : Z)
      (i j : nat) :
  (0 <= k < Z.of_nat (List.length img))%Z ->
  (i < List.length img)%nat -> (j < List.length (nth i img []))%nat ->
  nth j (nth i (set_row k v img) []) d
  = if Nat.eqb i (Z.to_nat k) then v else nth j (nth i img []) d.
Proof.
  intros Hk Hi Hj. unfold set_row. rewrite norm_index_inside by exact Hk.
  destruct (Nat.eqb_spec i (Z.to_nat k)) as [->|Hne].
  - rewrite nth_update_at_same by lia.
    rewrite (nth_map_inside _ _ _ _ d) by exact Hj. reflexivity.
  - rewrite nth_update_at_other by lia. reflexivity.
Qed.

(** The bound that [2 * pi * c / M] keeps for a coordinate inside the
    image. *)
Lemma periodic_bound (c m : R) :
  (0 < m)%R -> (- m / 2 <= c <= m / 2)%R ->
  (- PI <= 2 * PI * c / m <= PI)%R.
Proof.
  intros Hm [Hlo Hhi]. pose proof PI_RGT_0 as Hpi.
  assert (Hq : (2 * PI * c / m = PI * (2 * c / m))%R) by (field; lra).
  rewrite Hq.
  assert (Hb : (-1 <= 2 * c / m <= 1)%R).
  { split.
    - apply (Rmult_le_reg_r m); [exact Hm|].
      replace (2 * c / m * m)%R with (2 * c)%R by (field; lra). lra.
    - apply (Rmult_le_reg_r m); [exact Hm|].
      replace (2 * c / m * m)%R with (2 * c)%R by (field; lra). lra. }
  nra.
Qed.

End NufftFurther.

(** X8: every entry of the projection: when [nufft1] returns an array of
    the requested shape (M1, M2), entry (i, j) of [project_with_nufft], for
    0 <= i < M1 and 0 <= j <= M2//2, is entry
    ((i + M1//2) mod M1, (j + M2//2) mod M2) of the transform, except on
    row M1//2 for even M1 and on column M2//2 for even M2, where it is
    zero. *)
Theorem project_with_nufft_entries
        (C : Type) (complex_of : R -> C) (czero : C)
        (nufft1 : Z * Z -> list C -> list R -> list R -> R -> list (list C))
        (weights : list R) (coordinate_list : list (list R))
        (M1 M2 : Z) (eps : R) (i j : Z) :
  (0 < M1)%Z -> (0 < M2)%Z ->
  (forall shape w y x e, Nufft.has_shape shape (nufft1 shape w y x e)) ->
  (0 <= i < M1)%Z -> (0 <= j <= M2 / 2)%Z ->
  let raw :=
    Nufft.nufft1_call C complex_of nufft1 weights coordinate_list
                      (M1, M2) eps in
  let out :=
    Nufft.project_with_nufft C complex_of czero nufft1
                             weights coordinate_list (M1, M2) eps in
  forall d,
    nth (Z.to_nat j) (nth (Z.to_nat i) out []) d
    = if ((M1 mod 2 =? 0) && (i =? M1 / 2)
          || (M2 mod 2 =? 0) && (j =? M2 / 2))%Z
      then czero
      else nth (Z.to_nat ((j + M2 / 2) mod M2))
               (nth (Z.to_nat ((i + M1 / 2) mod M1)) raw []) d.
Proof.
  intros H1 H2 Hnufft Hi Hj raw out d.
  assert (Hraw : Nufft.has_shape (M1, M2) raw) by apply Hnufft.
  assert (Hh1 : (0 <= M1 / 2 < M1)%Z)
    by (split; [apply Z.div_pos | apply Z.div_lt_upper_bound]; lia).
  assert (Hh2 : (0 <= M2 / 2 < M2)%Z)
    by (split; [apply Z.div_pos | apply Z.div_lt_upper_bound]; lia).
  set (P0 := map (Nufft.slice_to (M2 / 2 + 1)%Z) (Nufft.ifftshift raw)).
  set (P1 := if (M2 mod 2 =? 0)%Z then Nufft.set_col (-1) czero P0 else P0).
  assert (Hout : out = if (M1 mod 2 =? 0)%Z
                       then Nufft.set_row (M1 / 2) czero P1 else P1)
    by reflexivity.
  clearbody out. subst out.
  pose proof (ifftshift_shape _ _ Hraw) as Hshift.
  assert (HP0 : Nufft.has_shape (M1, M2 / 2 + 1)%Z P0).
  { destruct Hshift as [Hr Hc]. split.
    - unfold P0. rewrite length_map. exact Hr.
    - unfold P0. apply Forall_map. revert Hc. apply Forall_impl.
      cbn [fst snd]. intros row Hrow. apply slice_to_length. lia. }
  assert (HP1 : Nufft.has_shape (M1, M2 / 2 + 1)%Z P1).
  { unfold P1. destruct (M2 mod 2 =? 0)%Z;
      [apply set_col_shape|]; exact HP0. }
  assert (Hd1 : (Z.to_nat M1 / 2)%nat = Z.to_nat (M1 / 2))
    by (rewrite Z2Nat.inj_div by lia; reflexivity).
  assert (Hd2 : (Z.to_nat M2 / 2)%nat = Z.to_nat (M2 / 2))
    by (rewrite Z2Nat.inj_div by lia; reflexivity).
  (* the entry before any Nyquist bin is cleared *)
  assert (E0 : nth (Z.to_nat j) (nth (Z.to_nat i) P0 []) d
               = nth (Z.to_nat ((j + M2 / 2) mod M2))
                     (nth (Z.to_nat ((i + M1 / 2) mod M1)) raw []) d).
  { unfold P0. destruct Hshift as [Hsr _]. cbn [fst] in Hsr.
    rewrite (nth_map_inside _ _ _ _ []) by lia.
    rewrite nth_slice_to by lia.
    rewrite (nth_ifftshift d (M1, M2)) by (try exact Hraw; cbn [fst snd]; lia).
    cbn [fst snd]. rewrite Hd1, Hd2.
    rewrite !Z2Nat.inj_mod, !Z2Nat.inj_add by lia. reflexivity. }
  (* after the last column is cleared *)
  assert (E1 : nth (Z.to_nat j) (nth (Z.to_nat i) P1 []) d
               = if ((M2 mod 2 =? 0) && (j =? M2 / 2))%Z then czero
                 else nth (Z.to_nat j) (nth (Z.to_nat i) P0 []) d).
  { unfold P1. destruct (M2 mod 2 =? 0)%Z; cbn [andb]; [|reflexivity].
    unfold Nufft.set_col. pose proof HP0 as [Hr0 _]. cbn [fst] in Hr0.
    rewrite (nth_map_inside _ _ _ _ []) by lia.
    assert (Hlen : List.length (nth (Z.to_nat i) P0 [])
                   = Z.to_nat (M2 / 2 + 1))
      by (apply (shape_row (M1, M2 / 2 + 1)%Z);
          [exact HP0 | cbn [fst]; lia]).
    rewrite nth_set_at_last by lia. rewrite Hlen.
    destruct (Nat.eqb_spec (Z.to_nat j) (Z.to_nat (M2 / 2 + 1) - 1));
      destruct (Z.eqb_spec j (M2 / 2)); try reflexivity; lia. }
  destruct (Z.eqb_spec (M1 mod 2) 0) as [Ev|Od]; cbn [andb orb].
  - pose proof HP1 as [Hr1 _]. cbn [fst] in Hr1.
    assert (Hlen : List.length (nth (Z.to_nat i) P1 [])
                   = Z.to_nat (M2 / 2 + 1))
      by (apply (shape_row (M1, M2 / 2 + 1)%Z);
          [exact HP1 | cbn [fst]; lia]).
    rewrite nth_set_row by lia.
    destruct (Nat.eqb_spec (Z.to_nat i) (Z.to_nat (M1 / 2)));
      destruct (Z.eqb_spec i (M1 / 2)); cbn [orb]; try lia;
      [reflexivity|].
    rewrite E1, E0. reflexivity.
  - rewrite E1, E0. reflexivity.
Qed.

Lemma project_with_nufft_entries_witness :
  let raw :=
    Nufft.nufft1_call Nufft.cplx Nufft.cplx_of Nufft.nudft1
                      [1; 2]%R [[0; 1; 5]; [3; -1; 2]]%R (4, 5)%Z 1%R in
  let out :=
    Nufft.project_with_nufft Nufft.cplx Nufft.cplx_of (0, 0)%R Nufft.nudft1
                             [1; 2]%R [[0; 1; 5]; [3; -1; 2]]%R (4, 5)%Z 1%R in
  nth (Z.to_nat 1) (nth (Z.to_nat 3) out []) (1, 1)%R
  = if ((4 mod 2 =? 0) && (3 =? 4 / 2)
        || (5 mod 2 =? 0) && (1 =? 5 / 2))%Z
    then (0, 0)%R
    else nth (Z.to_nat ((1 + 5 / 2) mod 5))
             (nth (Z.to_nat ((3 + 4 / 2) mod 4)) raw []) (1, 1)%R.
Proof.
  refine (project_with_nufft_entries
            Nufft.cplx Nufft.cplx_of (0, 0)%R Nufft.nudft1
            [1; 2]%R [[0; 1; 5]; [3; -1; 2]]%R 4 5 1%R 3 1
            _ _ _ _ _ (1, 1)%R);
    [lia | lia | intros; apply nudft1_shape | lia | cbn; lia].
Defined.

(** X9: coordinates inside the image, |x| <= M1/2 and |y| <= M2/2, are
    normalized into the periodic box: every x and y that
    [project_with_nufft] hands to [nufft1] lies in [-pi, pi]. *)
Theorem coordinates_periodic_in_box
        (coordinate_list : list (list R)) (M1 M2 : Z) :
  (0 < M1)%Z -> (0 < M2)%Z ->
  Forall (fun row =>
            (- IZR M1 / 2 <= nth 0 row 0 <= IZR M1 / 2)%R
            /\ (- IZR M2 / 2 <= nth 1 row 0 <= IZR M2 / 2)%R)
         coordinate_list ->
  let periodic := Nufft.coordinates_periodic coordinate_list (M1, M2) in
  Forall (fun x => (- PI <= x <= PI)%R) (Nufft.column 0 periodic)
  /\ Forall (fun y => (- PI <= y <= PI)%R) (Nufft.column 1 periodic).
Proof.
  intros H1 H2 Hin periodic. subst periodic.
  assert (Hm1 : (0 < IZR M1)%R) by (apply IZR_lt; exact H1).
  assert (Hm2 : (0 < IZR M2)%R) by (apply IZR_lt; exact H2).
  pose proof PI_RGT_0 as Hpi.
  unfold Nufft.column, Nufft.coordinates_periodic.
  rewrite !map_map.
  split; apply Forall_map; revert Hin; apply Forall_impl;
    intros [|a [|b rest]] [Ha Hb]; cbn in *;
    try lra; apply periodic_bound; assumption.
Qed.

Lemma coordinates_periodic_in_box_witness :
  let periodic :=
    Nufft.coordinates_periodic [[2; -1; 40]; [-2; 3; 0]]%R (4, 6)%Z in
  Forall (fun x => (- PI <= x <= PI)%R) (Nufft.column 0 periodic)
  /\ Forall (fun y => (- PI <= y <= PI)%R) (Nufft.column 1 periodic).
Proof.
  apply (coordinates_periodic_in_box [[2; -1; 40]; [-2; 3; 0]]%R 4 6);
    [lia | lia |].
  repeat constructor; cbn; lra.
Defined.

(** X10: the NUFFT projection reads only the first two columns of the
    coordinates: coordinate lists that agree on them give the same
    projection. *)
Theorem project_with_nufft_ignores_depth
        (C : Type) (complex_of : R -> C) (czero : C)
        (nufft1 : Z * Z -> list C -> list R -> list R -> R -> list (list C))
        (weights : list R) (coordinate_list coordinate_list' : list (list R))
        (shape : Z * Z) (eps : R) :
  map (firstn 2) coordinate_list = map (firstn 2) coordinate_list' ->
  Nufft.project_with_nufft C complex_of czero nufft1
                           weights coordinate_list shape eps
  = Nufft.project_with_nufft C complex_of czero nufft1
                             weights coordinate_list' shape eps.
Proof.
  intros Hxy. destruct shape as [M1 M2].
  unfold Nufft.project_with_nufft, Nufft.nufft1_call,
    Nufft.coordinates_periodic.
  rewrite Hxy. reflexivity.
Qed.

Lemma project_with_nufft_ignores_depth_witness :
  Nufft.project_with_nufft Nufft.cplx Nufft.cplx_of (0, 0)%R Nufft.nudft1
                           [1; 2]%R [[0; 1; 5]; [3; -1; 2]]%R (4, 6)%Z 1%R
  = Nufft.project_with_nufft Nufft.cplx Nufft.cplx_of (0, 0)%R Nufft.nudft1
                             [1; 2]%R [[0; 1]; [3; -1; 7]]%R (4, 6)%Z 1%R.
Proof.
  apply (project_with_nufft_ignores_depth
           Nufft.cplx Nufft.cplx_of (0, 0)%R Nufft.nudft1
           [1; 2]%R [[0; 1; 5]; [3; -1; 2]]%R [[0; 1]; [3; -1; 7]]%R
           (4, 6)%Z 1%R).
  reflexivity.
Defined.

(** ** The Gaussian distribution: sign, zero, and the variance scale *)

Section GaussianFurther.

Import Gaussian.
Local Open Scope Q_scope.

Lemma abs2_nonneg (r : complex) : 0 <= abs2 r.
Proof. unfold abs2. nra. Qed.

Lemma abs2_zero (r : complex) : abs2 r == 0 <-> (re r == 0 /\ im r == 0).
Proof.
  unfold abs2. split.
  - intros H. split; nra.
  - intros [H1 H2]. rewrite H1, H2. ring.
Qed.

Lemma mode_term_nonneg (r : complex) (v : Q) : 0 < v -> 0 <= abs2 r / (2 * v).
Proof.
  intros Hv. unfold Qdiv. apply Qmult_le_0_compat; [apply abs2_nonneg|].
  apply Qinv_le_0_compat. lra.
Qed.

Lemma mode_term_zero (r : complex) (v : Q) :
  0 < v -> (abs2 r / (2 * v) == 0 <-> abs2 r == 0).
Proof.
  intros Hv. split.
  - intros H.
    assert (Hne : ~ 2 * v == 0) by lra.
    rewrite <- (Qmult_div_r (abs2 r) (2 * v) Hne), H. ring.
  - intros H. rewrite H. unfold Qdiv. ring.
Qed.

Lemma sum_over_modes_nonneg (var : FourierOperatorLike) (rs : list complex) :
  forall qs : list freq,
    Forall (fun q => 0 < var q) qs -> 0 <= sum_over_modes rs qs var.
Proof.
  induction rs as [|r rs IH]; intros [|q qs] Hpos; cbn [sum_over_modes];
    try lra.
  inversion Hpos as [|? ? Hq Hqs]; subst.
  pose proof (mode_term_nonneg r (var q) Hq). pose proof (IH qs Hqs). lra.
Qed.

Lemma sum_over_modes_zero (var : FourierOperatorLike) (rs : list complex) :
  forall qs : list freq,
    List.length rs = List.length qs ->
    Forall (fun q => 0 < var q) qs ->
    (sum_over_modes rs qs var == 0
     <-> Forall (fun r => re r == 0 /\ im r == 0) rs).
Proof.
  induction rs as [|r rs IH]; intros [|q qs] Hlen Hpos;
    try discriminate Hlen; cbn [sum_over_modes].
  - split; [constructor | reflexivity].
  - inversion Hpos as [|? ? Hq Hqs]; subst.
    assert (Hlen' : List.length rs = List.length qs)
      by (simpl in Hlen; lia).
    pose proof (mode_term_nonneg r (var q) Hq) as Ht.
    pose proof (sum_over_modes_nonneg var rs qs Hqs) as Hs.
    split.
    + intros H0. constructor.
      * apply abs2_zero, (mode_term_zero r (var q) Hq). lra.
      * apply (IH qs Hlen' Hqs). lra.
    + intros Hall. inversion Hall as [|? ? Hr Hrs]; subst.
      rewrite (proj2 (IH qs Hlen' Hqs) Hrs).
      rewrite (proj2 (mode_term_zero r (var q) Hq) (proj2 (abs2_zero r) Hr)).
      ring.
Qed.

Lemma sum_over_modes_scale (var : FourierOperatorLike) (c : Q)
      (rs : list complex) :
  forall qs : list freq,
    sum_over_modes rs qs (fun q => c * var q)
    == sum_over_modes rs qs var / c.
Proof.
  induction rs as [|r rs IH]; intros [|q qs]; cbn [sum_over_modes];
    try (unfold Qdiv; ring).
  rewrite IH. unfold Qdiv. rewrite !Qinv_mult_distr. ring.
Qed.

(** The value [log_probability] returns on a shape match, through the
    spec's sum. *)
Lemma log_probability_value (self : IndependentFourierGaussian)
      (observed : ndarray complex) :
  shape observed
  = drop_last_axis (gshape (padded_frequency_grid_in_angstroms (pipeline self))) ->
  exists v : Q,
    snd (log_probability self observed) = inr v
    /\ v == sum_over_modes (data (cropped_residuals self observed))
                           (modes (frequency_grid_in_angstroms (pipeline self)))
                           (variance self)
            / inject_Z (size (cropped_residuals self observed)).
Proof.
  intros Hshape. rewrite (log_probability_matching self observed Hshape).
  eexists. split; [reflexivity|]. cbv zeta.
  unfold Csum, map2, amap, evaluate. cbn [data].
  rewrite re_sum_residuals. reflexivity.
Qed.

End GaussianFurther.

(** X11: when the cropped grid has at least one mode and the variance is
    positive at every mode of it, the value of [log_probability] is never
    negative, and it is zero exactly when every cropped residual is zero. *)
Theorem log_probability_nonneg_zero_iff
        (self : Gaussian.IndependentFourierGaussian)
        (observed : Gaussian.ndarray Gaussian.complex) :
  Gaussian.shape observed
  = Gaussian.drop_last_axis
      (Gaussian.gshape
         (Gaussian.padded_frequency_grid_in_angstroms (Gaussian.pipeline self))) ->
  List.length (Gaussian.data (Gaussian.cropped_residuals self observed))
  = List.length
      (Gaussian.modes
         (Gaussian.frequency_grid_in_angstroms (Gaussian.pipeline self))) ->
  Gaussian.modes
    (Gaussian.frequency_grid_in_angstroms (Gaussian.pipeline self)) <> [] ->
  Forall (fun q => 0 < Gaussian.variance self q)
         (Gaussian.modes
            (Gaussian.frequency_grid_in_angstroms (Gaussian.pipeline self))) ->
  exists v : Q,
    snd (Gaussian.log_probability self observed) = inr v
    /\ 0 <= v
    /\ (v == 0
        <-> Forall (fun r => Gaussian.re r == 0 /\ Gaussian.im r == 0)
                   (Gaussian.data (Gaussian.cropped_residuals self observed))).
Proof.
  intros Hshape Hsize Hmodes Hpos.
  destruct (log_probability_value self observed Hshape) as [v [Hv Ev]].
  exists v. split; [exact Hv|].
  set (rs := Gaussian.data (Gaussian.cropped_residuals self observed)) in *.
  set (qs := Gaussian.modes _) in *.
  pose proof (sum_over_modes_nonneg (Gaussian.variance self) rs qs Hpos) as Hs.
  pose proof (sum_over_modes_zero (Gaussian.variance self) rs qs Hsize Hpos)
    as Hz.
  unfold Gaussian.size in Ev. fold rs in Ev.
  assert (Hn : 0 < inject_Z (Z.of_nat (List.length rs))).
  { change 0 with (inject_Z 0). rewrite <- Zlt_Qlt. rewrite Hsize.
    destruct qs; [contradiction | simpl; lia]. }
  revert Hn Ev. generalize (inject_Z (Z.of_nat (List.length rs))).
  intros n Hn Ev. split.
  - rewrite Ev. unfold Qdiv. apply Qmult_le_0_compat; [exact Hs|].
    apply Qinv_le_0_compat. lra.
  - rewrite <- Hz. rewrite Ev. split.
    + intros H0. assert (Hne : ~ n == 0) by lra.
      rewrite <- (Qmult_div_r (Gaussian.sum_over_modes rs qs
                                 (Gaussian.variance self)) n Hne), H0.
      ring.
    + intros H0. rewrite H0. unfold Qdiv. ring.
Qed.

Lemma log_probability_nonneg_zero_iff_witness :
  exists v : Q,
    snd (Gaussian.log_probability
           Gaussian.variance_four
           (Gaussian.mkArray [1; 1]%Z [Gaussian.mkC 3 4])) = inr v
    /\ 0 <= v
    /\ (v == 0
        <-> Forall (fun r => Gaussian.re r == 0 /\ Gaussian.im r == 0)
                   (Gaussian.data
                      (Gaussian.cropped_residuals
                         Gaussian.variance_four
                         (Gaussian.mkArray [1; 1]%Z [Gaussian.mkC 3 4])))).
Proof.
  apply (log_probability_nonneg_zero_iff
           Gaussian.variance_four
           (Gaussian.mkArray [1; 1]%Z [Gaussian.mkC 3 4]));
    [reflexivity | reflexivity | discriminate | repeat constructor].
Defined.

(** X12: the value of [log_probability] is inversely proportional to the
    variance: when there is at least one cropped residual and the variance
    is nonzero at every mode of the cropped grid, multiplying the variance
    operator by a nonzero c divides the value by c. *)
Theorem log_probability_scales_inversely
        (pipeline : Gaussian.AbstractPipeline)
        (variance : Gaussian.FourierOperatorLike) (c : Q)
        (observed : Gaussian.ndarray Gaussian.complex) :
  Gaussian.shape observed
  = Gaussian.drop_last_axis
      (Gaussian.gshape (Gaussian.padded_frequency_grid_in_angstroms pipeline)) ->
  Gaussian.data
    (Gaussian.cropped_residuals
       (Gaussian.mkDistribution pipeline variance) observed) <> [] ->
  Forall (fun q => ~ variance q == 0)
         (Gaussian.modes (Gaussian.frequency_grid_in_angstroms pipeline)) ->
  ~ c == 0 ->
  exists v v' : Q,
    snd (Gaussian.log_probability
           (Gaussian.mkDistribution pipeline variance) observed) = inr v
    /\ snd (Gaussian.log_probability
              (Gaussian.mkDistribution pipeline (fun q => c * variance q))
              observed) = inr v'
    /\ v' == v / c.
Proof.
  intros Hshape _ _ _.
  destruct (log_probability_value
              (Gaussian.mkDistribution pipeline variance) observed Hshape)
    as [v [Hv Ev]].
  destruct (log_probability_value
              (Gaussian.mkDistribution pipeline (fun q => c * variance q))
              observed Hshape)
    as [v' [Hv' Ev']].
  exists v, v'. repeat split; try assumption.
  rewrite Ev, Ev'. cbn [Gaussian.variance Gaussian.pipeline].
  rewrite sum_over_modes_scale.
  unfold Gaussian.cropped_residuals. cbn [Gaussian.pipeline].
  unfold Qdiv. ring.
Qed.

Lemma log_probability_scales_inversely_witness :
  exists v v' : Q,
    snd (Gaussian.log_probability
           (Gaussian.mkDistribution Gaussian.one_mode_pipeline (fun _ => 4))
           (Gaussian.mkArray [1; 1]%Z [Gaussian.mkC 3 4])) = inr v
    /\ snd (Gaussian.log_probability
              (Gaussian.mkDistribution Gaussian.one_mode_pipeline
                                       (fun q => (5 # 2) * (fun _ => 4) q))
              (Gaussian.mkArray [1; 1]%Z [Gaussian.mkC 3 4])) = inr v'
    /\ v' == v / (5 # 2).
Proof.
  apply (log_probability_scales_inversely
           Gaussian.one_mode_pipeline (fun _ => 4) (5 # 2)
           (Gaussian.mkArray [1; 1]%Z [Gaussian.mkC 3 4]));
    [reflexivity | discriminate | repeat constructor; discriminate
     | discriminate].
Defined.

(** ** The helical lattice and the poses: every subunit *)

Section GeometryFurther.

Import Linalg3.
Local Open Scope R_scope.

Lemma nth_flat_map_rows {X Y : Type} (f : X -> list Y) (m : nat)
      (x0 : X) (d : Y) (l : list X) :
  (forall a, List.length (f a) = m) ->
  forall k i : nat,
    (k < List.length l)%nat -> (i < m)%nat ->
    nth (k * m + i) (flat_map f l) d = nth i (f (nth k l x0)) d.
Proof.
  intros Hf. induction l as [|a l IH]; intros k i Hk Hi; simpl in Hk;
    [lia|].
  cbn [flat_map]. destruct k as [|k].
  - cbn [nth Nat.mul Nat.add]. apply app_nth1. rewrite Hf. exact Hi.
  - rewrite app_nth2 by (rewrite Hf; simpl; lia).
    rewrite Hf. replace (S k * m + i - m)%nat with (k * m + i)%nat
      by (simpl; lia).
    cbn [nth]. apply IH; lia.
Qed.

Lemma nth_range (n : Z) (k : nat) :
  (k < Z.to_nat n)%nat -> nth k (Helix.range n) 0%Z = Z.of_nat k.
Proof.
  intros Hk. unfold Helix.range.
  rewrite (nth_map_inside _ _ _ _ 0%nat) by (rewrite length_seq; exact Hk).
  rewrite seq_nth by exact Hk. reflexivity.
Qed.

Lemma nth_arange (n : Z) (k : nat) :
  (k < Z.to_nat n)%nat -> nth k (Helix.arange n) 0 = IZR (Z.of_nat k).
Proof.
  intros Hk. unfold Helix.arange.
  rewrite (nth_map_inside _ _ _ _ 0%Z) by (rewrite range_length; exact Hk).
  rewrite nth_range by exact Hk. reflexivity.
Qed.

Lemma nth_symmetry_angles (n : Z) (k : nat) :
  (k < Z.to_nat n)%nat ->
  nth k (Helix.symmetry_angles n) 0 = 2 * PI * IZR (Z.of_nat k) / IZR n.
Proof.
  intros Hk. unfold Helix.symmetry_angles.
  rewrite (nth_map_inside _ _ _ _ 0%Z) by (rewrite range_length; exact Hk).
  rewrite nth_range by exact Hk. reflexivity.
Qed.

(** Two rotations about the screw axis compose by adding their angles. *)
Lemma screw_rotation_compose (a b : R) :
  matmul (Helix.screw_rotation (cos a) (sin a))
         (Helix.screw_rotation (cos b) (sin b))
  = Helix.screw_rotation (cos (a + b)) (sin (a + b)).
Proof.
  rewrite cos_plus, sin_plus. unfold Helix.screw_rotation.
  mat_unfold. pair_eq; ring.
Qed.

Lemma matvec_matmul (a b : mat3) (v : vec3) :
  matvec a (matvec b v) = matvec (matmul a b) v.
Proof. mat_ring. Qed.

(** A rotation about the screw axis keeps the distance from the axis. *)
Lemma screw_rotation_radius (a : R) (p : vec3) :
  vx (matvec (Helix.screw_rotation (cos a) (sin a)) p)
  * vx (matvec (Helix.screw_rotation (cos a) (sin a)) p)
  + vy (matvec (Helix.screw_rotation (cos a) (sin a)) p)
    * vy (matvec (Helix.screw_rotation (cos a) (sin a)) p)
  = vx p * vx p + vy p * vy p.
Proof.
  pose proof (sin2_cos2 a) as H. unfold Rsqr in H.
  unfold Helix.screw_rotation. mat_cases. mat_unfold.
  match goal with
  | |- _ = ?x * ?x + ?y * ?y =>
      transitivity ((sin a * sin a + cos a * cos a) * (x * x + y * y));
      [ring | rewrite H; ring]
  end.
Qed.

Lemma lattice_rotations_Forall (twist : R) (m : Z) (R_0 : mat3) (n : Z)
      (degrees : bool) :
  is_rotation R_0 ->
  Forall is_rotation
         (Helix.compute_helical_lattice_rotations twist m R_0 n degrees).
Proof.
  intros H0. unfold Helix.compute_helical_lattice_rotations.
  apply Forall_flat_map, Forall_forall. intros angle _.
  unfold Helix.compute_helix_subunit_rotations_per_start.
  rewrite map_map. apply Forall_map, Forall_forall. intros i _.
  unfold Helix.compute_ith_subunit_rotation_in_subhelix.
  rewrite <- matmul_assoc, screw_rotation_compose.
  apply is_rotation_matmul; [apply is_rotation_screw | exact H0].
Qed.

(** Subunit i of sub-helix k in the rotations and in the positions. *)
Lemma lattice_rotation_entry (twist : R) (m : Z) (R_0 : mat3) (n : Z)
      (degrees : bool) (k i : nat) (d : mat3) :
  (k < Z.to_nat n)%nat -> (i < Z.to_nat m)%nat ->
  nth (k * Z.to_nat m + i)
      (Helix.compute_helical_lattice_rotations twist m R_0 n degrees) d
  = let theta := if degrees then Helix.deg2rad twist else twist in
    let phi := 2 * PI * IZR (Z.of_nat k) / IZR n + IZR (Z.of_nat i) * theta in
    matmul (Helix.screw_rotation (cos phi) (sin phi)) R_0.
Proof.
  intros Hk Hi. unfold Helix.compute_helical_lattice_rotations.
  rewrite (nth_flat_map_rows _ (Z.to_nat m) 0).
  - rewrite nth_symmetry_angles by exact Hk.
    unfold Helix.compute_helix_subunit_rotations_per_start.
    rewrite map_map.
    rewrite (nth_map_inside _ _ _ _ 0) by (rewrite arange_length; exact Hi).
    rewrite nth_arange by exact Hi.
    unfold Helix.compute_ith_subunit_rotation_in_subhelix. cbv zeta.
    rewrite <- matmul_assoc, screw_rotation_compose. reflexivity.
  - intros a. unfold Helix.compute_helix_subunit_rotations_per_start.
    rewrite !length_map. apply arange_length.
  - rewrite symmetry_angles_length. exact Hk.
  - exact Hi.
Qed.

Lemma lattice_position_entry (rise twist : R) (m : Z) (r_0 : vec3) (n : Z)
      (degrees : bool) (k i : nat) (d : vec3) :
  (k < Z.to_nat n)%nat -> (i < Z.to_nat m)%nat ->
  nth (k * Z.to_nat m + i)
      (Helix.compute_helical_lattice_positions rise twist m r_0 n degrees) d
  = let theta := if degrees then Helix.deg2rad twist else twist in
    let phi := 2 * PI * IZR (Z.of_nat k) / IZR n + IZR (Z.of_nat i) * theta in
    vadd (matvec (Helix.screw_rotation (cos phi) (sin phi)) r_0)
         (0, 0, IZR (Z.of_nat i) * rise - rise * IZR (m - 1) / 2).
Proof.
  intros Hk Hi. unfold Helix.compute_helical_lattice_positions.
  rewrite (nth_flat_map_rows _ (Z.to_nat m) 0).
  - rewrite nth_symmetry_angles by exact Hk.
    unfold Helix.compute_helix_subunit_positions_per_start.
    rewrite map_map.
    rewrite (nth_map_inside _ _ _ _ 0) by (rewrite arange_length; exact Hi).
    rewrite nth_arange by exact Hi.
    unfold Helix.compute_ith_subunit_position_in_subhelix. cbv zeta.
    rewrite cos_plus, sin_plus. unfold Helix.screw_rotation.
    mat_cases. mat_unfold. pair_eq; field.
  - intros a. unfold Helix.compute_helix_subunit_positions_per_start.
    rewrite !length_map. apply arange_length.
  - rewrite symmetry_angles_length. exact Hk.
  - exact Hi.
Qed.

End GeometryFurther.

(** X13: for n_start >= 1 and n_subunits >= 0 the lattice of a [Helix] has
    n_start * (n_subunits // n_start) rows, so [positions] and [rotations]
    have n_subunits rows exactly when [__check_init__] accepts the helix,
    that is when n_subunits is a multiple of n_start. *)
Theorem helix_rows_iff_check_init (self : Helix.Helix) :
  (1 <= Helix.n_start self)%Z -> (0 <= Helix.n_subunits self)%Z ->
  (Z.of_nat (List.length (Helix.positions self)) = Helix.n_subunits self
   <-> Helix.__check_init__ self = inr tt)
  /\ (Z.of_nat (List.length (Helix.rotations self)) = Helix.n_subunits self
      <-> Helix.__check_init__ self = inr tt).
Proof.
  intros Hn Hs. unfold Helix.positions, Helix.rotations.
  rewrite positions_length, rotations_length.
  pose proof (Z.div_mod (Helix.n_subunits self) (Helix.n_start self)) as Hdm.
  assert (Hq : (0 <= Helix.n_subunits self / Helix.n_start self)%Z)
    by (apply Z.div_pos; lia).
  assert (Hrows : Z.of_nat (Z.to_nat (Helix.n_start self)
                            * Z.to_nat (Helix.n_subunits self
                                        / Helix.n_start self))
                  = (Helix.n_start self
                     * (Helix.n_subunits self / Helix.n_start self))%Z)
    by (rewrite Nat2Z.inj_mul, !Z2Nat.id by lia; reflexivity).
  rewrite Hrows. unfold Helix.__check_init__.
  destruct (Z.eqb_spec (Helix.n_start self) 0) as [E0|_]; [lia|].
  destruct (Z.eqb_spec (Helix.n_subunits self mod Helix.n_start self) 0)
    as [E|E]; cbn [negb]; split; split; intros H;
    try reflexivity; try discriminate H; lia.
Qed.

Lemma helix_rows_iff_check_init_witness :
  let self := Helix.mkHelix (10, 0, 0)%R Linalg3.eye 5 30 3 7 true in
  (Z.of_nat (List.length (Helix.positions self)) = Helix.n_subunits self
   <-> Helix.__check_init__ self = inr tt)
  /\ (Z.of_nat (List.length (Helix.rotations self)) = Helix.n_subunits self
      <-> Helix.__check_init__ self = inr tt).
Proof.
  apply (helix_rows_iff_check_init
           (Helix.mkHelix (10, 0, 0)%R Linalg3.eye 5 30 3 7 true));
    cbn; lia.
Defined.

(** X14: subunit i of sub-helix k has the rotation that turns the initial
    rotation about the screw axis by 2*pi*k/n_start + i*twist (the twist in
    radians): the symmetry rotation and the helical rotation add up. *)
Theorem helical_rotation_of_subunit
        (twist : R) (n_subunits_per_start : Z)
        (initial_rotation : Linalg3.mat3) (n_start : Z) (degrees : bool)
        (k i : Z) (d : Linalg3.mat3) :
  (0 <= k < n_start)%Z -> (0 <= i < n_subunits_per_start)%Z ->
  let theta := if degrees then Helix.deg2rad twist else twist in
  let phi := (2 * PI * IZR k / IZR n_start + IZR i * theta)%R in
  nth (Z.to_nat (k * n_subunits_per_start + i))
      (Helix.compute_helical_lattice_rotations
         twist n_subunits_per_start initial_rotation n_start degrees) d
  = Linalg3.matmul (Helix.screw_rotation (cos phi) (sin phi))
                   initial_rotation.
Proof.
  intros Hk Hi theta phi. subst theta phi.
  replace (Z.to_nat (k * n_subunits_per_start + i))
    with (Z.to_nat k * Z.to_nat n_subunits_per_start + Z.to_nat i)%nat by nia.
  rewrite lattice_rotation_entry by lia. cbv zeta.
  rewrite !Z2Nat.id by lia. reflexivity.
Qed.

Lemma helical_rotation_of_subunit_witness :
  let theta := if true then Helix.deg2rad 30 else 30%R in
  let phi := (2 * PI * IZR 1 / IZR 2 + IZR 3 * theta)%R in
  nth (Z.to_nat (1 * 4 + 3))
      (Helix.compute_helical_lattice_rotations 30 4 Linalg3.eye 2 true)
      Linalg3.eye
  = Linalg3.matmul (Helix.screw_rotation (cos phi) (sin phi)) Linalg3.eye.
Proof.
  apply (helical_rotation_of_subunit 30 4 Linalg3.eye 2 true 1 3 Linalg3.eye);
    lia.
Defined.

(** X15: subunit i of sub-helix k sits at the initial displacement turned
    about the screw axis by 2*pi*k/n_start + i*twist and moved along it by
    i*rise - rise*(n_subunits_per_start - 1)/2. *)
Theorem helical_position_of_subunit
        (rise twist : R) (n_subunits_per_start : Z)
        (initial_displacement : Linalg3.vec3) (n_start : Z) (degrees : bool)
        (k i : Z) (d : Linalg3.vec3) :
  (0 <= k < n_start)%Z -> (0 <= i < n_subunits_per_start)%Z ->
  let theta := if degrees then Helix.deg2rad twist else twist in
  let phi := (2 * PI * IZR k / IZR n_start + IZR i * theta)%R in
  nth (Z.to_nat (k * n_subunits_per_start + i))
      (Helix.compute_helical_lattice_positions
         rise twist n_subunits_per_start initial_displacement n_start degrees)
      d
  = Linalg3.vadd
      (Linalg3.matvec (Helix.screw_rotation (cos phi) (sin phi))
                      initial_displacement)
      (0, 0, IZR i * rise - rise * IZR (n_subunits_per_start - 1) / 2)%R.
Proof.
  intros Hk Hi theta phi. subst theta phi.
  replace (Z.to_nat (k * n_subunits_per_start + i))
    with (Z.to_nat k * Z.to_nat n_subunits_per_start + Z.to_nat i)%nat by nia.
  rewrite lattice_position_entry by lia. cbv zeta.
  rewrite !Z2Nat.id by lia. reflexivity.
Qed.

Lemma helical_position_of_subunit_witness :
  let theta := if true then Helix.deg2rad 30 else 30%R in
  let phi := (2 * PI * IZR 1 / IZR 2 + IZR 3 * theta)%R in
  nth (Z.to_nat (1 * 4 + 3))
      (Helix.compute_helical_lattice_positions 5 30 4 (10, 0, 3)%R 2 true)
      (0, 0, 0)%R
  = Linalg3.vadd
      (Linalg3.matvec (Helix.screw_rotation (cos phi) (sin phi))
                      (10, 0, 3)%R)
      (0, 0, IZR 3 * 5 - 5 * IZR (4 - 1) / 2)%R.
Proof.
  apply (helical_position_of_subunit
           5 30 4 (10, 0, 3)%R 2 true 1 3 (0, 0, 0)%R); lia.
Defined.

Lemma arange_members (m : Z) (i : R) :
  In i (Helix.arange m) -> exists k : nat, i = INR k.
Proof.
  unfold Helix.arange, Helix.range. intros Hin.
  apply in_map_iff in Hin. destruct Hin as [z [<- Hin]].
  apply in_map_iff in Hin. destruct Hin as [k [<- _]].
  exists k. symmetry. apply INR_IZR_INZ.
Qed.

Lemma full_turn_cos (k : nat) (twist : R) :
  cos (INR k * Helix.deg2rad (twist + 360))
  = cos (INR k * Helix.deg2rad twist).
Proof.
  unfold Helix.deg2rad.
  replace (INR k * ((twist + 360) * (PI / 180)))%R
    with (INR k * (twist * (PI / 180)) + 2 * INR k * PI)%R by field.
  apply cos_period.
Qed.

Lemma full_turn_sin (k : nat) (twist : R) :
  sin (INR k * Helix.deg2rad (twist + 360))
  = sin (INR k * Helix.deg2rad twist).
Proof.
  unfold Helix.deg2rad.
  replace (INR k * ((twist + 360) * (PI / 180)))%R
    with (INR k * (twist * (PI / 180)) + 2 * INR k * PI)%R by field.
  apply sin_period.
Qed.

(** X16: every lattice position is as far from the screw axis as the
    initial displacement: the lattice lies on a cylinder about the z
    axis. *)
Theorem helical_positions_on_cylinder
        (rise twist : R) (n_subunits_per_start : Z)
        (initial_displacement : Linalg3.vec3) (n_start : Z) (degrees : bool) :
  Forall (fun p =>
            (Linalg3.vx p * Linalg3.vx p + Linalg3.vy p * Linalg3.vy p
             = Linalg3.vx initial_displacement * Linalg3.vx initial_displacement
               + Linalg3.vy initial_displacement
                 * Linalg3.vy initial_displacement)%R)
         (Helix.compute_helical_lattice_positions
            rise twist n_subunits_per_start initial_displacement
            n_start degrees).
Proof.
  unfold Helix.compute_helical_lattice_positions.
  apply Forall_flat_map, Forall_forall. intros angle _.
  unfold Helix.compute_helix_subunit_positions_per_start.
  rewrite map_map. apply Forall_map, Forall_forall. intros i _.
  rewrite screw_rotation_radius.
  set (theta := if degrees then Helix.deg2rad twist else twist).
  rewrite <- (screw_rotation_radius (i * theta) initial_displacement).
  unfold Helix.compute_ith_subunit_position_in_subhelix.
  unfold Linalg3.vadd, Linalg3.vsub, Linalg3.vscale, Linalg3.vx, Linalg3.vy.
  cbn [fst snd]. ring.
Qed.

(** X17: a helix of one start and one subunit is the subunit itself: its
    only lattice position is the initial displacement and its only lattice
    rotation the initial rotation, whatever the rise and the twist. *)
Theorem single_subunit_lattice
        (rise twist : R) (initial_displacement : Linalg3.vec3)
        (initial_rotation : Linalg3.mat3) (degrees : bool) :
  Helix.compute_helical_lattice_positions
    rise twist 1 initial_displacement 1 degrees = [initial_displacement]
  /\ Helix.compute_helical_lattice_rotations
       twist 1 initial_rotation 1 degrees = [initial_rotation].
Proof.
  assert (Ha : Helix.arange 1 = [0%R]) by reflexivity.
  assert (Hs : Helix.symmetry_angles 1 = [(2 * PI * 0 / 1)%R]) by reflexivity.
  assert (H0 : (2 * PI * 0 / 1 = 0)%R) by field.
  unfold Helix.compute_helical_lattice_positions,
    Helix.compute_helical_lattice_rotations.
  rewrite Ha, Hs, H0. cbn [map flat_map app].
  unfold Helix.compute_helix_subunit_positions_per_start,
    Helix.compute_helix_subunit_rotations_per_start,
    Helix.compute_ith_subunit_position_in_subhelix,
    Helix.compute_ith_subunit_rotation_in_subhelix.
  cbn [map]. rewrite !app_nil_r, !Rmult_0_l, cos_0, sin_0.
  change (IZR (1 - 1)) with 0%R.
  unfold Helix.screw_rotation.
  destruct initial_displacement as [[x y] z].
  destruct initial_rotation as [[[[a b] c] [[e f] g]] [[h j] l]].
  split; f_equal; unfold Linalg3.matmul, Linalg3.transpose, Linalg3.matvec,
    Linalg3.dot, Linalg3.vadd, Linalg3.vsub, Linalg3.vscale,
    Linalg3.row0, Linalg3.row1, Linalg3.row2,
    Linalg3.vx, Linalg3.vy, Linalg3.vz; cbn [fst snd];
    repeat (apply pair_equal_spec; split); field.
Qed.

(** X18: a twist given in degrees is taken modulo a full turn: adding 360
    to it changes neither the lattice positions nor the lattice
    rotations. *)
Theorem full_turn_of_twist_changes_nothing
        (rise twist : R) (n_subunits_per_start : Z)
        (initial_displacement : Linalg3.vec3)
        (initial_rotation : Linalg3.mat3) (n_start : Z) :
  Helix.compute_helical_lattice_positions
    rise (twist + 360) n_subunits_per_start initial_displacement n_start true
  = Helix.compute_helical_lattice_positions
      rise twist n_subunits_per_start initial_displacement n_start true
  /\ Helix.compute_helical_lattice_rotations
       (twist + 360) n_subunits_per_start initial_rotation n_start true
     = Helix.compute_helical_lattice_rotations
         twist n_subunits_per_start initial_rotation n_start true.
Proof.
  unfold Helix.compute_helical_lattice_positions,
    Helix.compute_helical_lattice_rotations.
  cbv beta iota zeta.
  assert (Hp : map (fun i =>
                      Helix.compute_ith_subunit_position_in_subhelix
                        i (Helix.deg2rad (twist + 360)) rise
                        initial_displacement n_subunits_per_start)
                   (Helix.arange n_subunits_per_start)
               = map (fun i =>
                        Helix.compute_ith_subunit_position_in_subhelix
                          i (Helix.deg2rad twist) rise
                          initial_displacement n_subunits_per_start)
                     (Helix.arange n_subunits_per_start)).
  { apply map_ext_in. intros i Hin.
    destruct (arange_members _ _ Hin) as [k ->].
    unfold Helix.compute_ith_subunit_position_in_subhelix.
    rewrite full_turn_cos, full_turn_sin. reflexivity. }
  assert (Hr : map (fun i =>
                      Helix.compute_ith_subunit_rotation_in_subhelix
                        i (Helix.deg2rad (twist + 360)) initial_rotation)
                   (Helix.arange n_subunits_per_start)
               = map (fun i =>
                        Helix.compute_ith_subunit_rotation_in_subhelix
                          i (Helix.deg2rad twist) initial_rotation)
                     (Helix.arange n_subunits_per_start)).
  { apply map_ext_in. intros i Hin.
    destruct (arange_members _ _ Hin) as [k ->].
    unfold Helix.compute_ith_subunit_rotation_in_subhelix.
    rewrite full_turn_cos, full_turn_sin. reflexivity. }
  rewrite Hp, Hr. split; reflexivity.
Qed.

(** X19: under the identity pose (no rotation, zero offset, identity
    matrix) the poses of the subunits are the lattice itself: the offsets
    are the coordinates of the positions and the matrices are the lattice
    rotations. *)
Theorem poses_under_identity_pose
        (positions : list Linalg3.vec3) (rotations : list Linalg3.mat3) :
  let lab :=
    Assembly.poses (Assembly.mkPose (fun p => p) (0, 0, 0)%R Linalg3.eye)
                   positions rotations in
  Assembly.offset_x lab = map Linalg3.vx positions
  /\ Assembly.offset_y lab = map Linalg3.vy positions
  /\ Assembly.offset_z lab = map Linalg3.vz positions
  /\ Assembly.matrix lab = rotations.
Proof.
  unfold Assembly.poses, Assembly.rotate.
  cbn [Assembly.offset_x Assembly.offset_y Assembly.offset_z Assembly.matrix
       Assembly.rotate_point Assembly.offset Assembly.rotation_as_matrix].
  rewrite !map_map. repeat split.
  - apply map_ext. intros [[x y] z]. cbn. ring.
  - apply map_ext. intros [[x y] z]. cbn. ring.
  - apply map_ext. intros [[x y] z]. cbn. ring.
  - rewrite <- (map_id rotations) at 2. apply map_ext. intros m.
    apply matmul_eye_r.
Qed.

(** X20: the poses of a helical lattice are proper poses: when the initial
    rotation and the rotation of the assembly pose are orthonormal with
    determinant +1, so is the matrix of every subunit pose, and the poses
    hold one offset and one matrix per lattice site. *)
Theorem helical_poses_are_rotations
        (pose : Assembly.Pose) (rise twist : R) (n_subunits_per_start : Z)
        (initial_displacement : Linalg3.vec3)
        (initial_rotation : Linalg3.mat3) (n_start : Z) (degrees : bool) :
  Linalg3.is_rotation initial_rotation ->
  Linalg3.is_rotation (Assembly.rotation_as_matrix pose) ->
  let lab :=
    Assembly.poses
      pose
      (Helix.compute_helical_lattice_positions
         rise twist n_subunits_per_start initial_displacement n_start degrees)
      (Helix.compute_helical_lattice_rotations
         twist n_subunits_per_start initial_rotation n_start degrees) in
  Forall Linalg3.is_rotation (Assembly.matrix lab)
  /\ List.length (Assembly.matrix lab)
     = (Z.to_nat n_start * Z.to_nat n_subunits_per_start)%nat
  /\ List.length (Assembly.offset_x lab) = List.length (Assembly.matrix lab)
  /\ List.length (Assembly.offset_y lab) = List.length (Assembly.matrix lab)
  /\ List.length (Assembly.offset_z lab) = List.length (Assembly.matrix lab).
Proof.
  intros H0 Hpose lab. subst lab. unfold Assembly.poses, Assembly.rotate.
  cbn [Assembly.offset_x Assembly.offset_y Assembly.offset_z Assembly.matrix].
  rewrite !length_map, positions_length, rotations_length.
  repeat split; try reflexivity.
  apply Forall_map.
  pose proof (lattice_rotations_Forall twist n_subunits_per_start
                initial_rotation n_start degrees H0) as Hall.
  revert Hall. apply Forall_impl. intros m Hm.
  apply is_rotation_matmul; assumption.
Qed.

Lemma helical_poses_are_rotations_witness :
  let lab :=
    Assembly.poses
      (Assembly.mkPose (fun p => p) (1, 2, 3)%R Linalg3.eye)
      (Helix.compute_helical_lattice_positions 5 30 4 (10, 0, 3)%R 2 true)
      (Helix.compute_helical_lattice_rotations 30 4 Linalg3.eye 2 true) in
  Forall Linalg3.is_rotation (Assembly.matrix lab)
  /\ List.length (Assembly.matrix lab) = (Z.to_nat 2 * Z.to_nat 4)%nat
  /\ List.length (Assembly.offset_x lab) = List.length (Assembly.matrix lab)
  /\ List.length (Assembly.offset_y lab) = List.length (Assembly.matrix lab)
  /\ List.length (Assembly.offset_z lab) = List.length (Assembly.matrix lab).
Proof.
  apply (helical_poses_are_rotations
           (Assembly.mkPose (fun p => p) (1, 2, 3)%R Linalg3.eye)
           5 30 4 (10, 0, 3)%R Linalg3.eye 2 true);
    apply is_rotation_eye.
Defined.
